(** * Invoice extractor: page text reconstruction and image preprocessing

    A shallow embedding of [scripts/paddle_ocr.py] and
    [scripts/vlm_preprocess.py].

    - Python integers are [Z]; confidence scores are IEEE binary64 values
      ([PrimFloat.float]); strings are [string].
    - The OCR engine, the orientation and unwarping models and the image
      codec are collaborators of the program: they enter as [Variable]s of
      a [Section], each returning either a value or the exception it
      raises.
    - Code that raises and catches is written in a small state-and-exception
      monad whose state survives a raise, the way Python locals and the
      file system do. *)

From Stdlib Require Import ZArith QArith Lia Ascii DecimalString DecimalNat.
From Stdlib Require Import PrimFloat.
From stdpp Require Import base option list strings gmap sorting.

(* Decimal literals of scores denote the nearest binary64 value. *)
Set Warnings "-inexact-float".

Local Open Scope string_scope.
Local Open Scope list_scope.
Local Open Scope Z_scope.

(** ** Python string helpers *)

Module Py.

(** The one-character string for a character code. *)
Definition chr (n : nat) : string := String (Ascii.ascii_of_nat n) EmptyString.

(** ["\n"] *)
Definition nl : string := chr 10.

(** [sep.join(parts)] *)
Fixpoint join (sep : string) (parts : list string) : string :=
  match parts with
  | [] => ""
  | [p] => p
  | p :: rest => p +:+ sep +:+ join sep rest
  end.

(** Texts are held as their UTF-8 bytes.  [str.strip()] removes the code
    points for which [str.isspace] holds.  The one-byte ones: tab, line
    feed, vertical tab, form feed, carriage return, the four separators
    0x1c..0x1f and the blank. *)
Definition is_space (c : Ascii.ascii) : bool :=
  let n := Ascii.nat_of_ascii c in
  ((9 <=? n)%nat && (n <=? 13)%nat) || ((28 <=? n)%nat && (n <=? 32)%nat).

(** The two-byte ones: U+0085 (C2 85) and U+00A0 (C2 A0). *)
Definition is_space2 (c1 c2 : Ascii.ascii) : bool :=
  let n1 := Ascii.nat_of_ascii c1 in
  let n2 := Ascii.nat_of_ascii c2 in
  (n1 =? 194)%nat && ((n2 =? 133)%nat || (n2 =? 160)%nat).

(** The three-byte ones: U+1680 (E1 9A 80), U+2000..U+200A (E2 80 80..8A),
    U+2028, U+2029, U+202F (E2 80 A8, A9, AF), U+205F (E2 81 9F) and
    U+3000 (E3 80 80). *)
Definition is_space3 (c1 c2 c3 : Ascii.ascii) : bool :=
  let n1 := Ascii.nat_of_ascii c1 in
  let n2 := Ascii.nat_of_ascii c2 in
  let n3 := Ascii.nat_of_ascii c3 in
  ((n1 =? 225)%nat && (n2 =? 154)%nat && (n3 =? 128)%nat)
  || ((n1 =? 226)%nat && (n2 =? 128)%nat
      && (((128 <=? n3)%nat && (n3 <=? 138)%nat)
          || (n3 =? 168)%nat || (n3 =? 169)%nat || (n3 =? 175)%nat))
  || ((n1 =? 226)%nat && (n2 =? 129)%nat && (n3 =? 159)%nat)
  || ((n1 =? 227)%nat && (n2 =? 128)%nat && (n3 =? 128)%nat).

(** Drops the white space code points at the start. *)
Fixpoint lstrip (s : string) : string :=
  match s with
  | String c1 s1 =>
      if is_space c1 then lstrip s1
      else
        match s1 with
        | String c2 s2 =>
            if is_space2 c1 c2 then lstrip s2
            else
              match s2 with
              | String c3 s3 => if is_space3 c1 c2 c3 then lstrip s3 else s
              | EmptyString => s
              end
        | EmptyString => s
        end
  | EmptyString => EmptyString
  end.

(** A text of white space only. *)
Definition all_space (s : string) : bool :=
  match lstrip s with EmptyString => true | _ => false end.

(** Drops the white space code points at the end: a byte is kept unless
    everything from it on is white space.  In a UTF-8 text a run of white
    space can only start at the first byte of a code point. *)
Fixpoint rstrip (s : string) : string :=
  match s with
  | String c s' => if all_space s then EmptyString else String c (rstrip s')
  | EmptyString => EmptyString
  end.

(** [s.strip()] *)
Definition strip (s : string) : string := rstrip (lstrip s).

(** Truthiness of a string: [not s] is [negb (truthy s)]. *)
Definition truthy (s : string) : bool :=
  match s with EmptyString => false | _ => true end.

(** [str(n)] for a non-negative integer, as f-strings format it. *)
Definition str_nat (n : nat) : string := NilEmpty.string_of_uint (Nat.to_uint n).

(** [os.path.join(d, name)] for a relative [name] (POSIX). *)
Definition ends_with_slash (d : string) : bool :=
  match last (String.list_ascii_of_string d) with
  | Some c => bool_decide (c = "/"%char)
  | None => false
  end.

Definition path_join (d name : string) : string :=
  if truthy d then
    if ends_with_slash d then d +:+ name else d +:+ "/" +:+ name
  else name.

End Py.

(** ** Row reconstruction: [build_clean_text] *)

(** A fragment is the tuple [(text, y, x)]. *)
Record fragment := Fragment { f_text : string; f_y : Z; f_x : Z }.

Definition row := list fragment.

(** [list.sort(key=...)] is a stable ascending sort.  The result of a stable
    sort is determined by the input and the key order, so it is modelled by
    stable insertion: an element goes before the first element of the
    already sorted tail whose key is not smaller. *)
Section StableSort.
Context {A : Type} (leb : A -> A -> bool).

Fixpoint insert_sorted (a : A) (l : list A) : list A :=
  match l with
  | [] => [a]
  | b :: l' => if leb a b then a :: l else b :: insert_sorted a l'
  end.

Definition stable_sort (l : list A) : list A := foldr insert_sorted [] l.
End StableSort.

(** Tuple comparison of the keys [(f[1], f[2])]. *)
Definition key_yx_leb (a b : fragment) : bool :=
  (f_y a <? f_y b) || ((f_y a =? f_y b) && (f_x a <=? f_x b)).

(** Comparison of the keys [f[2]]. *)
Definition key_x_leb (a b : fragment) : bool := f_x a <=? f_x b.

Definition ROW_THRESHOLD : Z := 50.

(** [rows[-1][0][1]]: the y of the first fragment of the last row, when
    [rows] is non-empty.  Every row the loop makes holds a fragment, so the
    lookup of the first fragment does not fail on the rows it builds. *)
Definition last_row_anchor (rows : list row) : option Z :=
  r ← last rows; f ← head r; Some (f_y f).

(** [rows[-1].append(f)] *)
Definition append_to_last (rows : list row) (f : fragment) : list row :=
  match last rows with
  | Some r => removelast rows ++ [r ++ [f]]
  | None => rows
  end.

(** The body of the grouping loop (lines 56-60). *)
Definition group_step (rows : list row) (f : fragment) : list row :=
  match last_row_anchor rows with
  | Some y0 =>
      if Z.abs (f_y f - y0) <? ROW_THRESHOLD
      then append_to_last rows f
      else rows ++ [[f]]
  | None => rows ++ [[f]]
  end.

Definition group_rows (fragments : list fragment) : list row :=
  foldl group_step [] fragments.

(** Lines 64-67: one output line per row. *)
Definition row_line (r : row) : string :=
  Py.join "    " (f_text <$> stable_sort key_x_leb r).

Definition build_clean_text (fragments : list fragment) : string :=
  match fragments with
  | [] => "[No text detected]"
  | _ =>
      let sorted := stable_sort key_yx_leb fragments in
      let rows := group_rows sorted in
      Py.join Py.nl (row_line <$> rows)
  end.


(** Minimum confidence to include a line.  The literal [0.30] denotes the
    nearest binary64 value, as it does in Python. *)
Definition MIN_CONFIDENCE : float := 0.30%float.

(** ** Exceptions *)

(** An instance of [Exception]; [str(e)] is its message. *)
Inductive exn := Exception (msg : string).

Definition str_exn (e : exn) : string := let 'Exception m := e in m.

(** A call that returns a value or raises. *)
Abbreviation result A := (exn + A)%type.

Definition result_bind {A B} (r : result A) (k : A -> result B) : result B :=
  match r with
  | inl e => inl e
  | inr a => k a
  end.

Notation "'let?' x ':=' r 'in' k" := (result_bind r (fun x => k))
  (at level 10, x name, r at level 100, k at level 200, only parsing).

(** ** Fragment collection: the body of the page loop of [extract] *)

(** A vertex [p] of a polygon: [p[0]] is x and [p[1]] is y.  Coordinates are
    exact rationals, which cover both integer and floating-point vertices. *)
Definition point := (Q * Q)%type.
Definition polygon := list point.

(** What depends on the version of the interpreter that runs the scripts:
    the message of the [ValueError] that [min] raises on an empty iterable. *)
Class Interpreter := { min_empty_message : string }.

(** CPython up to 3.11; later versions word the message differently. *)
Definition cpython_3_11 : Interpreter :=
  {| min_empty_message := "min() arg is an empty sequence" |}.

(** [min(...)] over a generator: the first smallest element; raises
    [ValueError] on an empty one. *)
Definition py_min `{Interpreter} (l : list Q) : result Q :=
  match l with
  | [] => inl (Exception min_empty_message)
  | q :: l' => inr (foldl (fun m x => if Qle_bool m x then m else x) q l')
  end.

(** [int(q)]: truncation toward zero. *)
Definition py_int (q : Q) : Z := Z.quot (Qnum q) (Z.pos (Qden q)).

(** What [result[0]] can be: [None], the mapping of parallel arrays of
    PaddleOCR v3 (it holds the key ["rec_texts"]), or the legacy list of
    [[box, (text, score)]] lines. *)
Record ocr_result := OCRResult {
  rec_texts : list string;
  rec_scores : list float;
  dt_polys : list polygon
}.

Inductive legacy_line := Line (box : polygon) (text : string) (score : float).

Inductive page_result :=
| PNone
| PStructured (d : ocr_result)
| PLegacy (lines : list legacy_line).

(** What [ocr.ocr(img_path)] returns: [None] or a list. *)
Inductive ocr_return :=
| RNone
| RList (l : list page_result).

(** [not result or not result[0]]: [None], the empty list and a list whose
    head is [None] or empty are falsy; a mapping that holds keys is not. *)
Definition no_results (r : ocr_return) : bool :=
  match r with
  | RNone => true
  | RList [] => true
  | RList (PNone :: _) => true
  | RList (PLegacy [] :: _) => true
  | RList (_ :: _) => false
  end.

(** The test of lines 116 and 126. *)
Definition below_confidence (score : float) : bool := PrimFloat.ltb score MIN_CONFIDENCE.

Definition skipped (text : string) (score : float) : bool :=
  below_confidence score || negb (Py.truthy (Py.strip text)).

(** One turn of either collection loop (lines 116-120 and 126-130):
    [None] stands for [continue]. *)
Definition collect_item `{Interpreter} (text : string) (score : float) (poly : polygon)
  : result (option fragment) :=
  if skipped text score then inr None
  else
    let? x_min := py_min (fst <$> poly) in
    let? y_min := py_min (snd <$> poly) in
    inr (Some (Fragment (Py.strip text) (py_int y_min) (py_int x_min))).

(** [zip(a, b, c)] stops at the shortest argument. *)
Fixpoint zip3 {A B C} (a : list A) (b : list B) (c : list C) : list (A * B * C) :=
  match a, b, c with
  | x :: a', y :: b', z :: c' => (x, y, z) :: zip3 a' b' c'
  | _, _, _ => []
  end.

(** The loop over the items, appending to [fragments]; a raise ends it. *)
Fixpoint collect `{Interpreter} (items : list (string * float * polygon))
    (fragments : list fragment)
  : result (list fragment) :=
  match items with
  | [] => inr fragments
  | (text, score, poly) :: rest =>
      let? o := collect_item text score poly in
      match o with
      | Some f => collect rest (fragments ++ [f])
      | None => collect rest fragments
      end
  end.

Definition structured_items (d : ocr_result) : list (string * float * polygon) :=
  zip3 (rec_texts d) (rec_scores d) (dt_polys d).

Definition legacy_items (lines : list legacy_line) : list (string * float * polygon) :=
  (fun '(Line box text score) => (text, score, box)) <$> lines.

(** Lines 106-130: the fragments of a page result that is not falsy. *)
Definition page_fragments `{Interpreter} (p : page_result) : result (list fragment) :=
  match p with
  | PStructured d => collect (structured_items d) []
  | PLegacy lines => collect (legacy_items lines) []
  | PNone => inr []
  end.

(** The three placeholder texts. *)
Definition NO_OCR_RESULTS : string := "[No OCR results]".

Definition extraction_failed (e : exn) : string :=
  "[PaddleOCR extraction failed: " +:+ str_exn e +:+ "]".

(** The loaded OCR engine: [ocr.ocr]. *)
Class OcrEngine := { ocr : string -> result ocr_return }.

Section Extract.
Context `{Interpreter} `{OcrEngine}.

(** The body of the [try] (lines 101-133): the text appended for the page. *)
Definition try_page (img_path : string) : result string :=
  let? r := ocr img_path in
  if no_results r then inr NO_OCR_RESULTS
  else
    match r with
    | RList (ocr_result :: _) =>
        let? fragments := page_fragments ocr_result in
        inr (build_clean_text fragments)
    | _ => inr NO_OCR_RESULTS
    end.

(** [try ... except Exception as e] (lines 100-136). *)
Definition page_text (img_path : string) : string :=
  match try_page img_path with
  | inr t => t
  | inl e => extraction_failed e
  end.

(** The page loop (line 99), appending to [page_texts]. *)
Definition extract_pages (images : list string) : list string :=
  foldl (fun page_texts img_path => page_texts ++ [page_text img_path]) [] images.

End Extract.

(** ** Page discovery and the document of [extract] *)

(** [os.path.join(image_dir, f"page_{page_num}.png")] *)
Definition page_path (image_dir : string) (page_num : nat) : string :=
  Py.path_join image_dir ("page_" +:+ Py.str_nat page_num +:+ ".png").

(** Lines 82-89.  [files] is the set of paths that exist; the [while True]
    loop is given [fuel] turns and [None] means they ran out. *)
Fixpoint find_pages (files : gset string) (image_dir : string)
    (fuel page_num : nat) (images : list string) : option (list string) :=
  match fuel with
  | O => None
  | S fuel' =>
      let img_path := page_path image_dir page_num in
      if bool_decide (img_path ∈ files)
      then find_pages files image_dir fuel' (S page_num) (images ++ [img_path])
      else Some images
  end.

Definition no_pages_error (image_dir : string) : exn :=
  Exception ("No page_*.png images found in " +:+ image_dir).

Record document := Document {
  fullText : string;
  pages : list string;
  totalPages : nat
}.

Definition PAGE_SEPARATOR : string := Py.nl +:+ Py.nl +:+ "---" +:+ Py.nl +:+ Py.nl.

Section ExtractDocument.
Context `{Interpreter} `{OcrEngine}.

(** [extract(image_dir)] with the engine loaded. *)
Definition extract (files : gset string) (fuel : nat) (image_dir : string)
  : option (result document) :=
  images ← find_pages files image_dir fuel 1 [];
  Some match images with
       | [] => inl (no_pages_error image_dir)
       | _ =>
           let page_texts := extract_pages images in
           inr {| fullText := Py.join PAGE_SEPARATOR page_texts;
                  pages := page_texts;
                  totalPages := length images |}
       end.

End ExtractDocument.

(** ** A state-and-exception monad

    A computation runs on a state and finishes, raises or runs out of loop
    fuel.  A raise keeps the state reached so far. *)

Inductive outcome (S A : Type) :=
| Done (a : A) (s : S)
| Raised (e : exn) (s : S)
| OutOfFuel.
Arguments Done {S A} a s.
Arguments Raised {S A} e s.
Arguments OutOfFuel {S A}.

Definition M (S A : Type) : Type := S -> outcome S A.

Definition ret {S A} (a : A) : M S A := fun s => Done a s.

Definition bind {S A B} (m : M S A) (k : A -> M S B) : M S B :=
  fun s =>
    match m s with
    | Done a s' => k a s'
    | Raised e s' => Raised e s'
    | OutOfFuel => OutOfFuel
    end.

(** A collaborator call: its value, or its exception raised here. *)
Definition call {S A} (r : result A) : M S A :=
  fun s => match r with inr a => Done a s | inl e => Raised e s end.

(** A fuelled pure loop: [None] is out of fuel. *)
Definition call_loop {S A} (r : option (result A)) : M S A :=
  fun s => match r with Some r' => call r' s | None => OutOfFuel end.

Definition modify {S} (f : S -> S) : M S unit := fun s => Done tt (f s).

(** [try: body except Exception as e: handler(e)] *)
Definition try_except {S A} (body : M S A) (handler : exn -> M S A) : M S A :=
  fun s =>
    match body s with
    | Raised e s' => handler e s'
    | o => o
    end.

Notation "'let*' x ':=' m 'in' k" := (bind m (fun x => k))
  (at level 10, x name, m at level 100, k at level 200, only parsing).
Notation "'do*' m 'in' k" := (bind m (fun _ => k))
  (at level 10, m at level 100, k at level 200, only parsing).

(** ** The image library and the two models of [vlm_preprocess.py] *)

(** Pillow and numpy as the program uses them.  Every operation returns its
    value or the exception it raises. *)
Class Imaging := {
  Img : Type;
  Bytes : Type;
  Arr : Type;
  (** [len(buf.getvalue())], which is [buf.tell()] after one [save] *)
  nbytes : Bytes -> Z;
  img_mode : Img -> string;
  img_size : Img -> Z * Z;
  (** [Image.open(path)] *)
  image_open : string -> result Img;
  (** [img.convert(mode)] *)
  img_convert : Img -> string -> result Img;
  (** [img.resize(size, Image.LANCZOS)] *)
  img_resize : Img -> Z * Z -> result Img;
  (** [img.rotate(angle, expand=True)] *)
  img_rotate : Img -> Z -> result Img;
  (** [img.save(buf, format="JPEG", quality=quality)] on a fresh buffer *)
  img_save_jpeg : Img -> Z -> result Bytes;
  (** [img.save(path)] on an existing file *)
  img_save_png : Img -> string -> result unit;
  (** [Image.fromarray(a[:, :, ::-1])] *)
  img_fromarray_bgr : Arr -> result Img;
  (** [open(path, "wb")]: whether the operating system lets the path be
      opened for writing (its directory exists and can be written to) *)
  open_for_write : string -> result unit
}.

(** What [unwarp_result["doctr_img"]] finds: no such key, a value that is
    not an [ndarray], or an [ndarray]. *)
Inductive unwarp_result `{Imaging} :=
| UnwarpNoKey
| UnwarpOther
| UnwarpArray (a : Arr).

Class Models `{Imaging} := {
  (** lines 92-93: [int(next(ori_model.predict(input=p))["label_names"][0])] *)
  ori_predict : string -> result Z;
  (** line 117: [next(unwarp_model.predict(input=p))], where the file [p]
      holds the image given second *)
  unwarp_predict : string -> Img -> result unwarp_result
}.

(** The file system: the paths that exist, the bytes written to output
    files, and how many temporary files were made so far. *)
Record world `{Imaging} := World {
  files : gset string;
  written : gmap string Bytes;
  tmp_count : nat
}.

(** One entry of ["pages"]; the key ["file"] is absent until it is set. *)
Record page_info := PageInfo {
  page : nat;
  rotated : Z;
  unwarped : bool;
  file : option string
}.

(** What a page's processing works on: the file system and the [info]
    dictionary, both of which keep their updates when a step raises. *)
Record pstate `{Imaging} := PState { fs : world; info : page_info }.

Definition MAX_JPEG_BYTES : Z := 5 * 1024 * 1024.

(** [int(w * 0.85)]: the product truncated toward zero.  For the sizes an
    image can have the binary64 product truncates to the exact quotient. *)
Definition scale_dim (w : Z) : Z := Z.quot (w * 85) 100.

Section SaveCappedJpeg.
Context `{Imaging}.

(** Lines 45-48: one turn of the size-capping loop. *)
Definition shrink_encode (quality : Z) (img : Img) : result (Img * Bytes) :=
  let '(w, h) := img_size img in
  let? img' := img_resize img (scale_dim w, scale_dim h) in
  let? buf := img_save_jpeg img' quality in
  inr (img', buf).

(** Lines 44-48: [while buf.tell() > MAX_JPEG_BYTES], with [fuel] turns. *)
Fixpoint cap_loop (fuel : nat) (quality : Z) (img : Img) (buf : Bytes)
  : option (result Bytes) :=
  if MAX_JPEG_BYTES <? nbytes buf then
    match fuel with
    | O => None
    | S fuel' =>
        match shrink_encode quality img with
        | inl e => Some (inl e)
        | inr (img', buf') => cap_loop fuel' quality img' buf'
        end
    end
  else Some (inr buf).

(** Lines 50-51: [open] raises when the path cannot be opened for writing,
    and then nothing is made; otherwise the file is created or replaced. *)
Definition write_file (path : string) (b : Bytes) : M world unit :=
  do* call (open_for_write path) in
  modify (fun w => {| files := {[path]} ∪ files w;
                      written := <[path := b]> (written w);
                      tmp_count := tmp_count w |}).

Definition needs_rgb (mode : string) : bool :=
  bool_decide (mode = "RGBA") || bool_decide (mode = "P").

Definition save_capped_jpeg (fuel : nat) (img : Img) (out_path : string) (quality : Z)
  : M world unit :=
  let* img := (if needs_rgb (img_mode img) then call (img_convert img "RGB") else ret img) in
  let* buf := call (img_save_jpeg img quality) in
  let* buf := call_loop (cap_loop fuel quality img buf) in
  write_file out_path buf.

End SaveCappedJpeg.

Section Preprocess.
Context `{Models}.

(** Runs a file-system computation inside a page's processing. *)
Definition on_fs {A} (m : M world A) : M pstate A :=
  fun s =>
    match m (fs s) with
    | Done a w => Done a {| fs := w; info := info s |}
    | Raised e w => Raised e {| fs := w; info := info s |}
    | OutOfFuel => OutOfFuel
    end.

Definition set_rotated (angle : Z) : M pstate unit :=
  modify (fun s => {| fs := fs s;
                      info := {| page := page (info s); rotated := angle;
                                 unwarped := unwarped (info s); file := file (info s) |} |}).

Definition set_unwarped (b : bool) : M pstate unit :=
  modify (fun s => {| fs := fs s;
                      info := {| page := page (info s); rotated := rotated (info s);
                                 unwarped := b; file := file (info s) |} |}).

Definition set_file (out_file : string) : M pstate unit :=
  modify (fun s => {| fs := fs s;
                      info := {| page := page (info s); rotated := rotated (info s);
                                 unwarped := unwarped (info s); file := Some out_file |} |}).

(** The name the operating system gives the next temporary file; the model
    numbers them. *)
Definition tmp_name (n : nat) : string := "/tmp/tmp" +:+ Py.str_nat n +:+ ".png".

(** Lines 109-110: [NamedTemporaryFile(suffix=".png", delete=False)] makes
    the file and leaves it in place when the [with] block closes it. *)
Definition make_temp : M world string :=
  fun w =>
    let tmp_path := tmp_name (tmp_count w) in
    Done tmp_path {| files := {[tmp_path]} ∪ files w;
                     written := written w;
                     tmp_count := S (tmp_count w) |}.

(** [os.unlink(path)] *)
Definition unlink (path : string) : M world unit :=
  modify (fun w => {| files := files w ∖ {[path]};
                      written := written w;
                      tmp_count := tmp_count w |}).

(** Lines 107-115: the file handed to the unwarping model, and [tmp_path]. *)
Definition unwarp_source (img_path : string) (angle : Z) (img : Img)
  : M pstate (string * option string) :=
  if bool_decide (angle ≠ 0) then
    let* tmp_path := on_fs make_temp in
    do* call (img_save_png img tmp_path) in
    ret (tmp_path, Some tmp_path)
  else ret (img_path, None).

(** Lines 117-128: the body of the inner [try], from the model call on. *)
Definition unwarp_apply (unwarp_input : string) (tmp_path : option string) (img : Img)
  : M pstate Img :=
  let* unwarp_result := call (unwarp_predict unwarp_input img) in
  let* img' :=
    match unwarp_result with
    | UnwarpNoKey => call (inl (Exception "'doctr_img'"))
    | UnwarpOther => ret img
    | UnwarpArray a =>
        let* i := call (img_fromarray_bgr a) in
        do* set_unwarped true in
        ret i
    end in
  do* match tmp_path with
      | Some p => if Py.truthy p then on_fs (unlink p) else ret tt
      | None => ret tt
      end in
  ret img'.

(** Step 2 (lines 105-132): the working image after the stage. *)
Definition unwarp_stage (img_path : string) (angle : Z) (img : Img) : M pstate Img :=
  try_except
    (let* src := unwarp_source img_path angle img in
     unwarp_apply (fst src) (snd src) img)
    (fun _ => ret img).

(** [f"page_{page_idx}_pre.jpg"] *)
Definition out_file_name (page_idx : nat) : string :=
  "page_" +:+ Py.str_nat page_idx +:+ "_pre.jpg".

(** Step 3 (lines 135-138), which the fallback repeats (lines 149-152). *)
Definition encode_stage (fuel : nat) (image_dir : string) (page_idx : nat) (img : Img)
  : M pstate unit :=
  let out_file := out_file_name page_idx in
  let out_path := Py.path_join image_dir out_file in
  do* on_fs (save_capped_jpeg fuel img out_path 90) in
  set_file out_file.

(** Lines 91-138: the body of the outer [try]. *)
Definition primary (fuel : nat) (image_dir img_path : string) (page_idx : nat)
  : M pstate unit :=
  let* angle := call (ori_predict img_path) in
  do* set_rotated angle in
  let* img := call (image_open img_path) in
  let* img := (if bool_decide (angle ≠ 0) then call (img_rotate img angle) else ret img) in
  let* img := unwarp_stage img_path angle img in
  encode_stage fuel image_dir page_idx img.

(** Lines 145-152: the handler of the outer [try]. *)
Definition fallback (fuel : nat) (image_dir img_path : string) (page_idx : nat)
  : M pstate unit :=
  let* img := call (image_open img_path) in
  encode_stage fuel image_dir page_idx img.

Definition process_page (fuel : nat) (image_dir img_path : string) (page_idx : nat)
  : M pstate unit :=
  try_except (primary fuel image_dir img_path page_idx)
             (fun _ => fallback fuel image_dir img_path page_idx).

Definition new_info (page_idx : nat) : page_info :=
  {| page := page_idx; rotated := 0; unwarped := false; file := None |}.

(** The page loop (lines 86-154), appending to [pages]. *)
Fixpoint preprocess_pages (fuel : nat) (image_dir : string) (images : list string)
    (pages : list page_info) : M world (list page_info) :=
  match images with
  | [] => ret pages
  | img_path :: rest =>
      let page_idx := (length pages + 1)%nat in
      fun w =>
        match process_page fuel image_dir img_path page_idx
                {| fs := w; info := new_info page_idx |} with
        | Done _ s => preprocess_pages fuel image_dir rest (pages ++ [info s]) (fs s)
        | Raised e s => Raised e (fs s)
        | OutOfFuel => OutOfFuel
        end
  end.

(** [preprocess(image_dir)] with both models loaded; the value is the list
    under ["pages"]. *)
Definition preprocess (fuel : nat) (image_dir : string) : M world (list page_info) :=
  fun w =>
    match find_pages (files w) image_dir fuel 1 [] with
    | None => OutOfFuel
    | Some [] => Raised (no_pages_error image_dir) w
    | Some images => preprocess_pages fuel image_dir images [] w
    end.

End Preprocess.

(** ** Row grouping, read from the left

    The same grouping written as a recursion that carries the current row
    and its anchor; [group_rows_from] relates it to the loop. *)
Fixpoint group_from (anchor : fragment) (cur : row) (l : list fragment) : list row :=
  match l with
  | [] => [cur]
  | f :: l' =>
      if Z.abs (f_y f - f_y anchor) <? ROW_THRESHOLD
      then group_from anchor (cur ++ [f]) l'
      else cur :: group_from f [f] l'
  end.

(** A row that starts with a fragment and holds only fragments strictly
    within the threshold of that first one. *)
Definition row_in_band (r : row) : Prop :=
  ∃ a, head r = Some a ∧
       Forall (fun f => Z.abs (f_y f - f_y a) < ROW_THRESHOLD) r.

(** The chain the specification speaks of: sorted by [(y, x)], and every
    fragment strictly within the threshold of the one before it. *)
Fixpoint within_threshold_chain (l : list fragment) : bool :=
  match l with
  | a :: (b :: _) as l' =>
      key_yx_leb a b && (Z.abs (f_y b - f_y a) <? ROW_THRESHOLD)
      && within_threshold_chain l'
  | _ => true
  end.

(** [k] turns of the size-capping loop body in a row. *)
Fixpoint shrink_n `{Imaging} (quality : Z) (k : nat) (img : Img) (buf : Bytes)
  : result (Img * Bytes) :=
  match k with
  | O => inr (img, buf)
  | S k' =>
      let? ib := shrink_encode quality img in
      shrink_n quality k' (fst ib) (snd ib)
  end.

(** The sort keys as values: [(f[1], f[2])]. *)
Definition key_yx (f : fragment) : Z * Z := (f_y f, f_x f).

(** The orders the two sorts leave behind. *)
Definition yx_sorted (l : list fragment) : Prop :=
  StronglySorted (fun a b => key_yx_leb a b = true) l.

Definition x_sorted (l : list fragment) : Prop :=
  StronglySorted (fun a b => f_x a <= f_x b) l.

(** The rows as they are serialized: grouped, then each sorted by x. *)
Definition output_rows (fragments : list fragment) : list row :=
  stable_sort key_x_leb <$> group_rows (stable_sort key_yx_leb fragments).

(** The items the collection loop of a page result goes through. *)
Definition page_items (p : page_result) : list (string * float * polygon) :=
  match p with
  | PStructured d => structured_items d
  | PLegacy lines => legacy_items lines
  | PNone => []
  end.

(** The parallel arrays that hold the same recognitions as a legacy list. *)
Definition arrays_of_lines (lines : list legacy_line) : ocr_result :=
  {| rec_texts := (fun '(Line _ text _) => text) <$> lines;
     rec_scores := (fun '(Line _ _ score) => score) <$> lines;
     dt_polys := (fun '(Line box _ _) => box) <$> lines |}.

(** ** Concrete inputs *)

Module Demo.

(** Three fragments, each 30 below the one before. *)
Definition chain3 : list fragment :=
  [Fragment "a" 0 0; Fragment "b" 30 0; Fragment "c" 60 0].

(** End-to-end example 1. *)
Definition receipt : list fragment :=
  [Fragment "Milk" 100 10; Fragment "$3.99" 102 300;
   Fragment "Eggs" 200 10; Fragment "$4.50" 198 300].

(** A small scanned document: five page images in the directory [scan]. *)
Definition scan_files : gset string :=
  list_to_set (page_path "scan" <$> [1; 2; 3; 4; 5]%nat).

(** An axis-parallel box with corners [(x, y)] and [(x + w, y + h)]. *)
Definition box_at (x y w h : Z) : polygon :=
  [(inject_Z x, inject_Z y); (inject_Z (x + w), inject_Z y);
   (inject_Z (x + w), inject_Z (y + h)); (inject_Z x, inject_Z (y + h))].

(** Page 1: a structured result, with one score exactly at the threshold,
    one below it and one blank text. *)
Definition page1_result : ocr_result :=
  {| rec_texts := ["Milk"; " $3.99 "; "noise"; "   "];
     rec_scores := [0.98%float; MIN_CONFIDENCE; 0.1%float; 0.9%float];
     dt_polys := [box_at 10 100 80 20; box_at 300 102 60 20;
                  box_at 500 400 30 20; box_at 10 700 5 5] |}.

(** Page 5: the legacy shape. *)
Definition page5_lines : list legacy_line :=
  [Line (box_at 10 200 80 20) "Eggs" 0.75%float;
   Line (box_at 300 198 60 20) "$4.50" 0.29%float].

(** An engine that raises on page 2, returns the empty list on page 3 and a
    mapping with empty arrays on page 4. *)
Definition scan_engine : OcrEngine :=
  {| ocr p :=
       if bool_decide (p = "scan/page_1.png") then inr (RList [PStructured page1_result])
       else if bool_decide (p = "scan/page_2.png") then inl (Exception "boom")
       else if bool_decide (p = "scan/page_3.png") then inr (RList [])
       else if bool_decide (p = "scan/page_4.png")
            then inr (RList [PStructured (OCRResult [] [] [])])
       else if bool_decide (p = "scan/page_5.png") then inr (RList [PLegacy page5_lines])
       else inr RNone |}.

(** The same engine, except that it also reads page 2. *)
Definition scan_engine_ok : OcrEngine :=
  {| ocr p :=
       if bool_decide (p = "scan/page_2.png")
       then inr (RList [PLegacy page5_lines])
       else @ocr scan_engine p |}.

Definition scan_images : list string := page_path "scan" <$> [1; 2; 3; 4; 5]%nat.

(** A second directory, [good], with three pages. *)
Definition good_files : gset string :=
  list_to_set (page_path "good" <$> [1; 2; 3]%nat).

Definition good_images : list string := page_path "good" <$> [1; 2; 3]%nat.

(** A toy image library: a picture is its mode and size, an encoding is its
    length, and a JPEG takes 1000 bytes and three more per pixel.  The file
    [scan/page_2.png] is not an image; resizing to an empty size and
    encoding an empty picture raise; nothing can be written under
    [locked/]. *)
Record picture := Picture { pic_mode : string; pic_w : Z; pic_h : Z }.

Definition jpeg_len (p : picture) : Z := 1000 + 3 * pic_w p * pic_h p.

Definition toy_imaging : Imaging :=
  {| Img := picture;
     Bytes := Z;
     Arr := picture;
     nbytes b := b;
     img_mode := pic_mode;
     img_size p := (pic_w p, pic_h p);
     image_open path :=
       if bool_decide (path = "scan/page_2.png")
       then inl (Exception "cannot identify image file")
       else inr (Picture "RGBA" 4000 3000);
     img_convert p mode := inr (Picture mode (pic_w p) (pic_h p));
     img_resize p size :=
       if (fst size <? 1) || (snd size <? 1)
       then inl (Exception "height and width must be > 0")
       else inr (Picture (pic_mode p) (fst size) (snd size));
     img_rotate p angle :=
       inr (if bool_decide (angle = 180) then p
            else Picture (pic_mode p) (pic_h p) (pic_w p));
     img_save_jpeg p quality :=
       if (pic_w p <? 1) || (pic_h p <? 1)
       then inl (Exception "cannot write empty image as JPEG")
       else inr (jpeg_len p);
     img_save_png p path := inr tt;
     img_fromarray_bgr a := inr a;
     open_for_write path :=
       if String.prefix "locked/" path
       then inl (Exception "Permission denied")
       else inr tt |}.

(** Toy models: first pages are seen rotated by 90 degrees, orientation
    fails on [good/page_2.png], and unwarping fails on portrait images. *)
Definition toy_models : @Models toy_imaging :=
  {| ori_predict path :=
       if bool_decide (path = "good/page_2.png")
       then inl (Exception "orientation failed")
       else if bool_decide (path = "good/page_1.png") || bool_decide (path = "scan/page_1.png")
            then inr 90
            else inr 0;
     unwarp_predict path (img : @Img toy_imaging) :=
       if pic_w img <? pic_h img
       then inl (Exception "UVDoc failed")
       else inr (@UnwarpArray toy_imaging (Picture "RGB" (pic_w img) (pic_h img))) |}.

Definition disk : @world toy_imaging :=
  {| files := scan_files ∪ good_files; written := ∅; tmp_count := 0 |}.

End Demo.

(** ** The command line of the two scripts

    What a run leaves behind: the exit status, the value whose JSON form was
    printed on standard output, and the ["error"] field of the JSON object
    printed on standard error.  The traceback that goes to standard error
    before that object is not recorded. *)
Record run (A : Type) := Run {
  exit_code : Z;
  stdout_json : option A;
  stderr_error : option string
}.
Arguments Run {A} exit_code stdout_json stderr_error.
Arguments exit_code {A} r.
Arguments stdout_json {A} r.
Arguments stderr_error {A} r.

Definition fail_with {A} (msg : string) : run A :=
  {| exit_code := 1; stdout_json := None; stderr_error := Some msg |}.

Definition succeed_with {A} (data : A) : run A :=
  {| exit_code := 0; stdout_json := Some data; stderr_error := None |}.

(** Lines 147-164 of [paddle_ocr.py].  [dirs] holds the paths for which
    [os.path.isdir] is true; [None] is the discovery loop out of fuel.
    [emit] is [print(json.dumps(data, ensure_ascii=False))] on standard
    output, which raises when the stream cannot encode the text; the call is
    inside the [try], so its exception is reported like one of [extract]. *)
Definition ocr_main `{Interpreter} `{OcrEngine} (emit : document -> result unit)
    (dirs files : gset string) (fuel : nat) (argv : list string)
  : option (run document) :=
  match argv with
  | [_; image_dir] =>
      if bool_decide (image_dir ∈ dirs) then
        r ← extract files fuel image_dir;
        Some match r with
             | inr data =>
                 match emit data with
                 | inr _ => succeed_with data
                 | inl e => fail_with (str_exn e)
                 end
             | inl e => fail_with (str_exn e)
             end
      else Some (fail_with ("Directory not found: " +:+ image_dir))
  | _ => Some (fail_with "Usage: python paddle_ocr.py <image_dir>")
  end.

(** Lines 159-176 of [vlm_preprocess.py]: the run and the file system it
    leaves. *)
Definition preprocess_main `{Models} (dirs : gset string) (fuel : nat)
    (argv : list string) (w : world) : option (run (list page_info) * world) :=
  match argv with
  | [_; image_dir] =>
      if bool_decide (image_dir ∈ dirs) then
        match preprocess fuel image_dir w with
        | Done data w' => Some (succeed_with data, w')
        | Raised e w' => Some (fail_with (str_exn e), w')
        | OutOfFuel => None
        end
      else Some (fail_with ("Directory not found: " +:+ image_dir), w)
  | _ => Some (fail_with "Usage: python vlm_preprocess.py <image_dir>", w)
  end.

(** Whether the body of the unwarping stage runs to its end: the rotated
    image is saved where it has to be, the model returns, its result holds
    the key, and an array it holds converts to an image. *)
Definition unwarp_completes `{Models} (unwarp_input : string) (img : Img) : bool :=
  match unwarp_predict unwarp_input img with
  | inr UnwarpOther => true
  | inr (UnwarpArray a) =>
      match img_fromarray_bgr a with inr _ => true | inl _ => false end
  | inr UnwarpNoKey => false
  | inl _ => false
  end.

(** An output file that holds bytes within the ceiling. *)
Definition capped_output `{Imaging} (w : world) (path : string) : Prop :=
  ∃ b : Bytes, written w !! path = Some b ∧ nbytes b <= MAX_JPEG_BYTES.

(** [os.path.join(image_dir, f"page_{page_idx}_pre.jpg")] *)
Definition out_path_of (image_dir : string) (page_idx : nat) : string :=
  Py.path_join image_dir (out_file_name page_idx).

(** A file system that still holds every path of an earlier one, the names
    of temporary files apart. *)
Definition keeps `{Imaging} (w w' : world) : Prop :=
  ∀ p : string, p ∈ files w -> (∀ n : nat, p ≠ tmp_name n) -> p ∈ files w'.

(** A step of page processing that keeps the files whether it returns or
    raises, and returns a value with the property [P]. *)
Definition keeping `{Imaging} {A} (m : M pstate A) (P : A -> Prop) : Prop :=
  ∀ s : pstate,
    match m s with
    | Done a s' => keeps (fs s) (fs s') ∧ P a
    | Raised _ s' => keeps (fs s) (fs s')
    | OutOfFuel => True
    end.

(** More concrete inputs. *)
Module Sample.

(** A legacy result whose second line has no vertex. *)
Definition no_vertex_engine : OcrEngine :=
  {| ocr p :=
       inr (RList [PLegacy ([Line (Demo.box_at 10 200 80 20) "Eggs" 0.75%float]
                            ++ Line [] "Milk" 0.9%float :: [])]) |}.

(** A directory in which page 2 is missing. *)
Definition gap_files : gset string :=
  list_to_set [page_path "gap" 1; page_path "gap" 3; page_path "gap" 4].

Definition dirs : gset string := list_to_set ["scan"; "good"; "gap"; "empty"].

(** A standard output that encodes ASCII only: printing a text with any
    other byte raises. *)
Definition ascii_stdout (doc : document) : result unit :=
  if forallb (fun c => (Ascii.nat_of_ascii c <? 128)%nat)
       (String.list_ascii_of_string (fullText doc))
  then inr tt
  else inl (Exception "'ascii' codec can't encode character").

(** An engine that reads the text [café] on every page. *)
Definition cafe_engine : OcrEngine :=
  {| ocr p :=
       inr (RList [PLegacy [Line (Demo.box_at 10 200 80 20)
                              ("caf" +:+ Py.chr 195 +:+ Py.chr 169) 0.75%float]]) |}.

(** A small picture, whose JPEG is under the ceiling. *)
Definition thumbnail : Demo.picture := Demo.Picture "RGB" 400 300.

(** The state after page 1 of [good] has been processed on [Demo.disk]: the
    temporary file and the output exist, and the entry is filled in. *)
Definition page1_done : @pstate Demo.toy_imaging :=
  {| fs := {| files := {["good/page_1_pre.jpg"]} ∪ ({["/tmp/tmp0.png"]} ∪ files Demo.disk);
              written := <["good/page_1_pre.jpg" := 5105209]> (written Demo.disk);
              tmp_count := 1 |};
     info := {| page := 1; rotated := 90; unwarped := false;
                file := Some "page_1_pre.jpg" |} |}.

(** The entries and the file system after [preprocess] on [good]. *)
Definition good_entries : list page_info :=
  [ {| page := 1; rotated := 90; unwarped := false; file := Some "page_1_pre.jpg" |};
    {| page := 2; rotated := 0; unwarped := false; file := Some "page_2_pre.jpg" |};
    {| page := 3; rotated := 0; unwarped := true; file := Some "page_3_pre.jpg" |} ].

Definition good_disk_after : @world Demo.toy_imaging :=
  {| files := {["good/page_3_pre.jpg"]} ∪ ({["good/page_2_pre.jpg"]} ∪
                ({["good/page_1_pre.jpg"]} ∪ ({["/tmp/tmp0.png"]} ∪ files Demo.disk)));
     written := <["good/page_3_pre.jpg" := 5105209]>
                  (<["good/page_2_pre.jpg" := 5105209]>
                     (<["good/page_1_pre.jpg" := 5105209]> (written Demo.disk)));
     tmp_count := 1 |}.

End Sample.

(** * Properties *)

(** ** Row reconstruction *)

Lemma group_step_snoc (init : list row) (a : fragment) (cur : row) (f : fragment) :
  group_step (init ++ [a :: cur]) f =
  if Z.abs (f_y f - f_y a) <? ROW_THRESHOLD
  then init ++ [(a :: cur) ++ [f]]
  else (init ++ [a :: cur]) ++ [[f]].
Proof.
  unfold group_step, last_row_anchor, append_to_last.
  rewrite last_snoc. simpl.
  destruct (Z.abs (f_y f - f_y a) <? ROW_THRESHOLD); [|done].
  by rewrite removelast_last.
Qed.

Lemma group_rows_from (l : list fragment) (init : list row) (a : fragment) (cur : row) :
  foldl group_step (init ++ [a :: cur]) l = init ++ group_from a (a :: cur) l.
Proof.
  revert init a cur. induction l as [|f l IH]; intros init a cur; [done|].
  simpl. rewrite group_step_snoc.
  destruct (Z.abs (f_y f - f_y a) <? ROW_THRESHOLD).
  - apply (IH init a (cur ++ [f])).
  - rewrite (IH (init ++ [a :: cur]) f []). by rewrite <- app_assoc.
Qed.

Lemma group_rows_cons (a : fragment) (l : list fragment) :
  group_rows (a :: l) = group_from a [a] l.
Proof. unfold group_rows. simpl. apply (group_rows_from l [] a []). Qed.

Lemma group_from_band (l : list fragment) (a : fragment) (cur : row) :
  head cur = Some a ->
  Forall (fun f => Z.abs (f_y f - f_y a) < ROW_THRESHOLD) cur ->
  Forall row_in_band (group_from a cur l).
Proof.
  revert a cur. induction l as [|f l IH]; intros a cur Hhd Hcur; simpl.
  - constructor; [|constructor]. by exists a.
  - destruct (Z.ltb_spec (Z.abs (f_y f - f_y a)) ROW_THRESHOLD) as [Hlt|Hge].
    + apply IH.
      * destruct cur; [done|]. done.
      * apply Forall_app. split; [done|]. by constructor.
    + constructor; [by exists a|].
      apply IH; [done|]. constructor; [|constructor].
      unfold ROW_THRESHOLD. lia.
Qed.

Lemma group_from_concat (l : list fragment) (a : fragment) (cur : row) :
  concat (group_from a cur l) = cur ++ l.
Proof.
  revert a cur. induction l as [|f l IH]; intros a cur; simpl.
  - by rewrite app_nil_r.
  - destruct (Z.abs (f_y f - f_y a) <? ROW_THRESHOLD).
    + rewrite IH. by rewrite <- app_assoc.
    + simpl. by rewrite IH.
Qed.

Lemma group_from_head (l : list fragment) (a : fragment) (cur : row) :
  head cur = Some a ->
  ∃ r rows, group_from a cur l = r :: rows ∧ head r = Some a.
Proof.
  revert cur. induction l as [|f l IH]; intros cur Hhd; simpl.
  - by exists cur, [].
  - destruct (Z.abs (f_y f - f_y a) <? ROW_THRESHOLD).
    + apply IH. destruct cur; [done|]. done.
    + by eexists cur, _.
Qed.

(** The first fragments of two neighbouring rows are at least the
    threshold apart. *)
Lemma group_from_apart (l : list fragment) (a : fragment) (cur : row) (i : nat)
    (r1 r2 : row) (a1 a2 : fragment) :
  head cur = Some a ->
  group_from a cur l !! i = Some r1 ->
  group_from a cur l !! S i = Some r2 ->
  head r1 = Some a1 -> head r2 = Some a2 ->
  ROW_THRESHOLD <= Z.abs (f_y a2 - f_y a1).
Proof.
  revert a cur i. induction l as [|f l IH]; intros a cur i Hhd H1 H2 Ha1 Ha2; simpl in *.
  - done.
  - destruct (Z.ltb_spec (Z.abs (f_y f - f_y a)) ROW_THRESHOLD) as [Hlt|Hge].
    + eapply (IH a (cur ++ [f]) i); eauto. destruct cur; [done|]. done.
    + destruct i as [|i]; simpl in *.
      * destruct (group_from_head l f [f] eq_refl) as (r & rows & Hg & Hr).
        rewrite Hg in H2. simpl in H2. simplify_eq. done.
      * eapply (IH f [f] i); eauto.
Qed.

(** C7: on the empty fragment list [build_clean_text] returns the sentinel
    ["[No text detected]"]; it is a value, not a raise, and it is not the
    empty string. *)
Theorem build_clean_text_empty :
  build_clean_text [] = "[No text detected]" ∧ build_clean_text [] ≠ "".
Proof. split; [reflexivity | discriminate]. Qed.

(** C5: on the four fragments of end-to-end example 1 the grouping makes
    exactly two rows and the text is ["Milk    $3.99\nEggs    $4.50"]. *)
Theorem build_clean_text_receipt :
  length (group_rows (stable_sort key_yx_leb Demo.receipt)) = 2%nat ∧
  build_clean_text Demo.receipt
  = "Milk    $3.99" +:+ Py.nl +:+ "Eggs    $4.50".
Proof. split; vm_compute; reflexivity. Qed.

(** C1 (as stated, refuted): [Demo.chain3] is sorted and each fragment is
    within the threshold of the one before it, yet the grouping splits it:
    no row holds all three fragments. *)
Lemma chain3_splits :
  within_threshold_chain Demo.chain3 = true ∧
  stable_sort key_yx_leb Demo.chain3 = Demo.chain3 ∧
  group_rows Demo.chain3
  = [[Fragment "a" 0 0; Fragment "b" 30 0]; [Fragment "c" 60 0]] ∧
  ¬ ∃ r, r ∈ group_rows Demo.chain3 ∧ ∀ f, f ∈ Demo.chain3 -> f ∈ r.
Proof.
  repeat split; try reflexivity.
  intros (r & Hr & Hall).
  assert (Ha : Fragment "a" 0 0 ∈ r) by (apply Hall; repeat constructor).
  assert (Hc : Fragment "c" 60 0 ∈ r) by (apply Hall; repeat constructor).
  change (group_rows Demo.chain3)
    with [[Fragment "a" 0 0; Fragment "b" 30 0]; [Fragment "c" 60 0]] in Hr.
  apply list_elem_of_In in Hr. simpl in Hr. destruct Hr as [<-|[<-|[]]].
  - apply list_elem_of_In in Hc. simpl in Hc. intuition discriminate.
  - apply list_elem_of_In in Ha. simpl in Ha. intuition discriminate.
Qed.

(** C1 (amended): the grouping keeps the order of the fragments; every row
    starts with a fragment and holds only fragments strictly within 50 units
    of that first fragment's y; and the first fragments of neighbouring rows
    are at least 50 units apart.  So a fragment that is 50 or more from the
    first fragment of the current row starts a new row, however close it is
    to the fragment before it. *)
Theorem group_rows_anchor_band (l : list fragment) :
  concat (group_rows l) = l ∧
  Forall row_in_band (group_rows l) ∧
  ∀ (i : nat) (r1 r2 : row) (a1 a2 : fragment),
    group_rows l !! i = Some r1 -> group_rows l !! S i = Some r2 ->
    head r1 = Some a1 -> head r2 = Some a2 ->
    ROW_THRESHOLD <= Z.abs (f_y a2 - f_y a1).
Proof.
  destruct l as [|a l].
  - repeat split; [constructor | intros; done].
  - rewrite group_rows_cons. split; [|split].
    + apply group_from_concat.
    + apply group_from_band; [done|]. constructor; [|constructor].
      unfold ROW_THRESHOLD. lia.
    + intros i r1 r2 a1 a2. by apply group_from_apart.
Qed.

Lemma group_rows_anchor_band_witness :
  ROW_THRESHOLD <= Z.abs (f_y (Fragment "c" 60 0) - f_y (Fragment "a" 0 0)).
Proof.
  apply (proj2 (proj2 (group_rows_anchor_band Demo.chain3)) 0%nat
           [Fragment "a" 0 0; Fragment "b" 30 0] [Fragment "c" 60 0]);
    reflexivity.
Defined.

(** ** Fragment collection and the pages of [extract] *)

Lemma extract_pages_acc `{Interpreter} `{OcrEngine} (images : list string) (acc : list string) :
  foldl (fun page_texts img_path => page_texts ++ [page_text img_path]) acc images
  = acc ++ (page_text <$> images).
Proof.
  revert acc. induction images as [|p images IH]; intros acc; simpl.
  - by rewrite app_nil_r.
  - rewrite IH. by rewrite <- app_assoc.
Qed.

Lemma extract_pages_map `{Interpreter} `{OcrEngine} (images : list string) :
  extract_pages images = page_text <$> images.
Proof. apply (extract_pages_acc images []). Qed.

Lemma extract_nonempty `{Interpreter} `{OcrEngine} files fuel image_dir (images : list string) :
  find_pages files image_dir fuel 1 [] = Some images ->
  images ≠ [] ->
  extract files fuel image_dir
  = Some (inr {| fullText := Py.join PAGE_SEPARATOR (page_text <$> images);
                 pages := page_text <$> images;
                 totalPages := length images |}).
Proof.
  intros Hfind Hne. unfold extract. rewrite Hfind. simpl.
  destruct images as [|p images]; [done|].
  by rewrite extract_pages_map.
Qed.

Lemma page_text_raise `{Interpreter} `{OcrEngine} (p : string) (e : exn) :
  ocr p = inl e -> page_text p = extraction_failed e.
Proof. intros He. unfold page_text, try_page. by rewrite He. Qed.

(** C2 (as stated, refuted): on the scanned document the engine raises on
    page 2 with message [boom]; the run still returns, and the text of
    page 2 is ["[PaddleOCR extraction failed: boom]"], not
    ["[OCR extraction failed: boom]"]. *)
Lemma failed_page_placeholder_text :
  @ocr Demo.scan_engine "scan/page_2.png" = inl (Exception "boom") ∧
  ∃ doc, @extract cpython_3_11 Demo.scan_engine Demo.scan_files 10 "scan" = Some (inr doc) ∧
         pages doc !! 1%nat = Some "[PaddleOCR extraction failed: boom]" ∧
         pages doc !! 1%nat ≠ Some "[OCR extraction failed: boom]".
Proof.
  split; [reflexivity|].
  eexists. split; [vm_compute; reflexivity|].
  split; [reflexivity | discriminate].
Qed.

(** C2 (amended): when pages were found, [extract] returns a document and
    raises nothing.  A page whose engine call raises gets the text
    ["[PaddleOCR extraction failed: <message>]"], and the text of any page
    depends on the engine's answer for that page alone: a second engine that
    answers a page the same way yields the same text for it, whatever the
    two engines do on the other pages. *)
Theorem extract_contains_engine_failure `{Interpreter} (E E' : OcrEngine)
    (files : gset string) (fuel : nat) (image_dir : string) (images : list string) :
  find_pages files image_dir fuel 1 [] = Some images ->
  images ≠ [] ->
  ∃ doc doc',
    @extract _ E files fuel image_dir = Some (inr doc) ∧
    @extract _ E' files fuel image_dir = Some (inr doc') ∧
    length (pages doc) = length images ∧
    (∀ (i : nat) (p : string) (e : exn),
        images !! i = Some p -> @ocr E p = inl e ->
        pages doc !! i
        = Some ("[PaddleOCR extraction failed: " +:+ str_exn e +:+ "]")) ∧
    (∀ (j : nat) (p : string),
        images !! j = Some p -> @ocr E p = @ocr E' p ->
        pages doc !! j = pages doc' !! j).
Proof.
  intros Hfind Hne.
  eexists _, _. split; [by apply (@extract_nonempty _ E)|].
  split; [by apply (@extract_nonempty _ E')|]. simpl.
  split; [by rewrite length_fmap|]. split.
  - intros i p e Hi He. rewrite list_lookup_fmap, Hi. simpl.
    by rewrite (page_text_raise p e He).
  - intros j p Hj Heq. rewrite !list_lookup_fmap, Hj. simpl.
    unfold page_text, try_page. by rewrite Heq.
Qed.

Lemma extract_contains_engine_failure_witness :
  ∃ doc doc',
    @extract cpython_3_11 Demo.scan_engine Demo.scan_files 10 "scan" = Some (inr doc) ∧
    @extract cpython_3_11 Demo.scan_engine_ok Demo.scan_files 10 "scan" = Some (inr doc') ∧
    length (pages doc) = length Demo.scan_images ∧
    (∀ (i : nat) (p : string) (e : exn),
        Demo.scan_images !! i = Some p -> @ocr Demo.scan_engine p = inl e ->
        pages doc !! i
        = Some ("[PaddleOCR extraction failed: " +:+ str_exn e +:+ "]")) ∧
    (∀ (j : nat) (p : string),
        Demo.scan_images !! j = Some p ->
        @ocr Demo.scan_engine p = @ocr Demo.scan_engine_ok p ->
        pages doc !! j = pages doc' !! j).
Proof.
  apply (@extract_contains_engine_failure cpython_3_11 Demo.scan_engine Demo.scan_engine_ok
           Demo.scan_files 10 "scan" Demo.scan_images).
  - vm_compute. reflexivity.
  - discriminate.
Defined.

(** C10 (as stated, refuted): on page 4 the engine returns a mapping whose
    arrays are empty, so there is no recognition at all; the mapping is not
    falsy, and the page text is ["[No text detected]"], not
    ["[No OCR results]"]. *)
Lemma empty_mapping_page_text :
  @ocr Demo.scan_engine "scan/page_4.png"
  = inr (RList [PStructured (OCRResult [] [] [])]) ∧
  @page_text cpython_3_11 Demo.scan_engine "scan/page_4.png" = "[No text detected]" ∧
  @page_text cpython_3_11 Demo.scan_engine "scan/page_4.png" ≠ "[No OCR results]".
Proof.
  split; [reflexivity|]. split; [reflexivity|].
  intros Heq. vm_compute in Heq. discriminate.
Qed.

Lemma extraction_failed_distinct (e : exn) :
  extraction_failed e ≠ "[No OCR results]" ∧
  extraction_failed e ≠ "[No text detected]".
Proof. destruct e as [m]. split; unfold extraction_failed; simpl; discriminate. Qed.

(** C10 (amended): when [result] or [result[0]] is falsy ([None], the empty
    list, a list whose head is [None] or an empty list) the page text is
    ["[No OCR results]"].  A result that is not falsy and yields no fragment
    (none recognised, as with a mapping of empty arrays, or all filtered
    out) gives ["[No text detected]"].  The two strings and the
    extraction-failure placeholder are pairwise distinct. *)
Theorem no_ocr_results_placeholder `{Interpreter} (E : OcrEngine) (p : string) (r : ocr_return) :
  @ocr E p = inr r ->
  (no_results r = true -> @page_text _ E p = "[No OCR results]") ∧
  (∀ (first : page_result) (rest : list page_result),
      r = RList (first :: rest) -> no_results r = false ->
      page_fragments first = inr [] ->
      @page_text _ E p = "[No text detected]") ∧
  "[No OCR results]" ≠ "[No text detected]" ∧
  (∀ e : exn, extraction_failed e ≠ "[No OCR results]" ∧
              extraction_failed e ≠ "[No text detected]").
Proof.
  intros Hr. unfold page_text, try_page. rewrite Hr. simpl.
  split; [by intros ->|]. split.
  - intros first rest -> -> Hfr. by rewrite Hfr.
  - split; [discriminate | apply extraction_failed_distinct].
Qed.

Lemma no_ocr_results_placeholder_witness :
  (no_results (RList []) = true ->
   @page_text cpython_3_11 Demo.scan_engine "scan/page_3.png" = "[No OCR results]") ∧
  (∀ (first : page_result) (rest : list page_result),
      RList [] = RList (first :: rest) -> no_results (RList []) = false ->
      @page_fragments cpython_3_11 first = inr [] ->
      @page_text cpython_3_11 Demo.scan_engine "scan/page_3.png" = "[No text detected]") ∧
  "[No OCR results]" ≠ "[No text detected]" ∧
  (∀ e : exn, extraction_failed e ≠ "[No OCR results]" ∧
              extraction_failed e ≠ "[No text detected]").
Proof.
  apply (@no_ocr_results_placeholder cpython_3_11 Demo.scan_engine "scan/page_3.png" (RList [])).
  reflexivity.
Defined.

(** ** The confidence filter *)

Lemma collect_app `{Interpreter} (l1 l2 : list (string * float * polygon)) (acc : list fragment) :
  collect (l1 ++ l2) acc = (let? a := collect l1 acc in collect l2 a).
Proof.
  revert acc. induction l1 as [|[[text score] poly] l1 IH]; intros acc; [done|].
  simpl. destruct (collect_item text score poly) as [e|[f|]]; simpl; [done|apply IH..].
Qed.


Lemma zip3_app {A B C} (a1 a2 : list A) (b1 b2 : list B) (c1 c2 : list C) :
  length a1 = length b1 -> length b1 = length c1 ->
  zip3 (a1 ++ a2) (b1 ++ b2) (c1 ++ c2) = zip3 a1 b1 c1 ++ zip3 a2 b2 c2.
Proof.
  revert b1 c1. induction a1 as [|x a1 IH]; intros [|y b1] [|z c1] Hab Hbc;
    simpl in *; try done.
  f_equal. apply IH; lia.
Qed.



(** Dropping an item from a collection loop leaves the other items'
    fragments; keeping it puts its fragment between theirs. *)
Lemma collect_drop `{Interpreter} (l1 l2 : list (string * float * polygon))
    (text : string) (score : float) (poly : polygon) :
  collect_item text score poly = inr None ->
  collect (l1 ++ (text, score, poly) :: l2) [] = collect (l1 ++ l2) [].
Proof.
  intros Hdrop. rewrite !collect_app.
  destruct (collect l1 []) as [e|a]; simpl; [done|]. by rewrite Hdrop.
Qed.




(** ** The size-capping loop of [save_capped_jpeg] *)

Lemma cap_loop_under `{Imaging} (fuel : nat) (quality : Z) (img : Img) (buf : Bytes) :
  nbytes buf <= MAX_JPEG_BYTES -> cap_loop fuel quality img buf = Some (inr buf).
Proof.
  intros Hle. destruct fuel; simpl;
    destruct (Z.ltb_spec MAX_JPEG_BYTES (nbytes buf)); (lia || done).
Qed.

Lemma cap_loop_over `{Imaging} (fuel : nat) (quality : Z) (img : Img) (buf : Bytes) :
  MAX_JPEG_BYTES < nbytes buf ->
  cap_loop (S fuel) quality img buf
  = match shrink_encode quality img with
    | inl e => Some (inl e)
    | inr (img', buf') => cap_loop fuel quality img' buf'
    end.
Proof.
  intros Hgt. simpl.
  destruct (Z.ltb_spec MAX_JPEG_BYTES (nbytes buf)); [done | lia].
Qed.

(** A buffer the loop returns is within the ceiling; it is the encoding
    reached after some number [k] of downscale-and-encode turns, and the
    buffer before each of those turns exceeded the ceiling. *)
Lemma cap_loop_result `{Imaging} (fuel : nat) (quality : Z) (img : Img) (buf b : Bytes) :
  cap_loop fuel quality img buf = Some (inr b) ->
  nbytes b <= MAX_JPEG_BYTES ∧
  ∃ (k : nat) (img_k : Img),
    (k <= fuel)%nat ∧
    shrink_n quality k img buf = inr (img_k, b) ∧
    ∀ j : nat, (j < k)%nat ->
      ∃ img_j buf_j, shrink_n quality j img buf = inr (img_j, buf_j) ∧
                     MAX_JPEG_BYTES < nbytes buf_j.
Proof.
  revert img buf. induction fuel as [|fuel IH]; intros img buf Hloop.
  - simpl in Hloop. destruct (Z.ltb_spec MAX_JPEG_BYTES (nbytes buf)); [done|].
    injection Hloop as <-. split; [done|]. exists 0%nat, img.
    split; [done|]. split; [done|]. intros j Hj. lia.
  - destruct (Z.ltb_spec MAX_JPEG_BYTES (nbytes buf)) as [Hgt|Hle].
    + rewrite cap_loop_over in Hloop by done.
      destruct (shrink_encode quality img) as [e|[img' buf']] eqn:Hstep; [done|].
      destruct (IH img' buf' Hloop) as (Hb & k & img_k & Hk & Hn & Hbefore).
      split; [done|]. exists (S k), img_k. split; [lia|]. split.
      * simpl. by rewrite Hstep.
      * intros [|j] Hj.
        -- by exists img, buf.
        -- destruct (Hbefore j) as (img_j & buf_j & Hj1 & Hj2); [lia|].
           exists img_j, buf_j. split; [|done]. simpl. by rewrite Hstep.
    + rewrite cap_loop_under in Hloop by done. injection Hloop as <-.
      split; [done|]. exists 0%nat, img.
      split; [lia|]. split; [done|]. intros j Hj. lia.
Qed.

(** C8: when [save_capped_jpeg] returns, the bytes now at the output path
    are within the 5 MiB ceiling.  They are the JPEG encoding of the image
    (converted to RGB where the mode asks for it) after [k] turns of
    downscaling both dimensions by 0.85 and encoding again, and before each
    of these turns the encoding exceeded the ceiling. *)
Theorem save_capped_jpeg_within_ceiling `{Imaging} (fuel : nat) (img : Img)
    (out_path : string) (quality : Z) (w w' : world) :
  save_capped_jpeg fuel img out_path quality w = Done tt w' ->
  ∃ b : Bytes,
    written w' !! out_path = Some b ∧ out_path ∈ files w' ∧
    nbytes b <= MAX_JPEG_BYTES ∧
    ∃ (img0 : Img) (buf0 : Bytes) (k : nat) (img_k : Img),
      (if needs_rgb (img_mode img) then img_convert img "RGB" = inr img0
       else img0 = img) ∧
      img_save_jpeg img0 quality = inr buf0 ∧
      shrink_n quality k img0 buf0 = inr (img_k, b) ∧
      ∀ j : nat, (j < k)%nat ->
        ∃ img_j buf_j, shrink_n quality j img0 buf0 = inr (img_j, buf_j) ∧
                       MAX_JPEG_BYTES < nbytes buf_j.
Proof.
  unfold save_capped_jpeg, bind. intros Hrun.
  assert (∃ img0, (if needs_rgb (img_mode img) then img_convert img "RGB" = inr img0
                   else img0 = img) ∧
                  (if needs_rgb (img_mode img)
                   then call (img_convert img "RGB") else ret img) w = Done img0 w)
    as (img0 & Himg0 & Hconv).
  { destruct (needs_rgb (img_mode img)).
    - unfold call in *. destruct (img_convert img "RGB") as [e|img0]; [done|].
      by exists img0.
    - by exists img. }
  rewrite Hconv in Hrun. unfold call in Hrun.
  destruct (img_save_jpeg img0 quality) as [e|buf0] eqn:Hsave; [done|].
  unfold call_loop, call in Hrun.
  destruct (cap_loop fuel quality img0 buf0) as [[e|b]|] eqn:Hloop; try done.
  unfold write_file, bind, call, modify in Hrun.
  destruct (open_for_write out_path) as [e|[]]; [done|].
  injection Hrun as <-. simpl.
  destruct (cap_loop_result _ _ _ _ _ Hloop) as (Hb & k & img_k & _ & Hn & Hbefore).
  exists b. split; [apply lookup_insert_eq|]. split; [apply elem_of_union_l, elem_of_singleton; done|].
  split; [done|]. by exists img0, buf0, k, img_k.
Qed.

Lemma save_capped_jpeg_within_ceiling_witness :
  ∃ b : Z,
    (<["out.jpg" := 5105209]> (written Demo.disk) : gmap string Z) !! "out.jpg" = Some b ∧
    "out.jpg" ∈ ({["out.jpg"]} ∪ files Demo.disk : gset string) ∧
    b <= MAX_JPEG_BYTES ∧
    ∃ (img0 : Demo.picture) (buf0 : Z) (k : nat) (img_k : Demo.picture),
      @img_convert Demo.toy_imaging (Demo.Picture "RGBA" 4000 3000) "RGB" = inr img0 ∧
      @img_save_jpeg Demo.toy_imaging img0 90 = inr buf0 ∧
      @shrink_n Demo.toy_imaging 90 k img0 buf0 = inr (img_k, b) ∧
      ∀ j : nat, (j < k)%nat ->
        ∃ img_j buf_j, @shrink_n Demo.toy_imaging 90 j img0 buf0 = inr (img_j, buf_j) ∧
                       MAX_JPEG_BYTES < buf_j.
Proof.
  exact (@save_capped_jpeg_within_ceiling Demo.toy_imaging 20
           (Demo.Picture "RGBA" 4000 3000) "out.jpg" 90 Demo.disk
           {| files := {["out.jpg"]} ∪ files Demo.disk;
              written := <["out.jpg" := 5105209]> (written Demo.disk);
              tmp_count := 0 |}
           eq_refl).
Defined.

Lemma scale_dim_bounds (w : Z) : 0 <= w -> 0 <= scale_dim w <= w.
Proof.
  intros Hw. unfold scale_dim. rewrite Z.quot_div_nonneg by lia.
  split; [apply Z.div_pos; lia|].
  apply Z.div_le_upper_bound; lia.
Qed.

Lemma scale_dim_shrinks (w : Z) : 1 <= w -> scale_dim w < w.
Proof.
  intros Hw. unfold scale_dim. rewrite Z.quot_div_nonneg by lia.
  apply Z.div_lt_upper_bound; lia.
Qed.

Lemma scale_dim_mono (a b : Z) : 0 <= a <= b -> scale_dim a <= scale_dim b.
Proof.
  intros Hab. unfold scale_dim. rewrite !Z.quot_div_nonneg by lia.
  apply Z.div_le_mono; lia.
Qed.

(** One turn strictly lowers the larger dimension while it is positive. *)
Lemma scale_dim_max (w h : Z) :
  0 <= w -> 0 <= h -> 1 <= Z.max w h ->
  Z.max (scale_dim w) (scale_dim h) < Z.max w h.
Proof.
  intros Hw Hh Hmax.
  pose proof (scale_dim_shrinks (Z.max w h) Hmax).
  pose proof (scale_dim_mono w (Z.max w h)).
  pose proof (scale_dim_mono h (Z.max w h)).
  lia.
Qed.

(** The loop ends, by returning or by a raised codec error, within as many
    turns as the larger dimension exceeds [d]. *)
Lemma cap_loop_ends `{Imaging} (d quality : Z)
    (Hresize : ∀ (i i' : Img) (size : Z * Z), img_resize i size = inr i' -> img_size i' = size)
    (Hsmall : ∀ (i : Img) (b : Bytes),
        0 <= fst (img_size i) <= d -> 0 <= snd (img_size i) <= d ->
        img_save_jpeg i quality = inr b -> nbytes b <= MAX_JPEG_BYTES)
    (fuel : nat) (img : Img) (buf : Bytes) :
  0 <= d ->
  0 <= fst (img_size img) -> 0 <= snd (img_size img) ->
  img_save_jpeg img quality = inr buf ->
  (Z.to_nat (Z.max (fst (img_size img)) (snd (img_size img)) - d) <= fuel)%nat ->
  cap_loop fuel quality img buf ≠ None.
Proof.
  intros Hd. revert img buf.
  induction fuel as [|fuel IH]; intros img buf Hw Hh Henc Hfuel.
  - rewrite cap_loop_under; [done|].
    apply (Hsmall img buf); [lia..|done].
  - destruct (Z.ltb_spec MAX_JPEG_BYTES (nbytes buf)) as [Hgt|Hle];
      [|by rewrite cap_loop_under].
    rewrite cap_loop_over by done.
    unfold shrink_encode.
    destruct (img_size img) as [w h] eqn:Hsize. simpl in *.
    destruct (img_resize img (scale_dim w, scale_dim h)) as [e|img'] eqn:Hres;
      simpl; [done|].
    destruct (img_save_jpeg img' quality) as [e|buf'] eqn:Henc'; simpl; [done|].
    assert (1 <= Z.max w h) as Hmax.
    { destruct (Z_lt_le_dec (Z.max w h) 1) as [Hlt|]; [|done].
      assert (nbytes buf <= MAX_JPEG_BYTES); [|lia].
      apply (Hsmall img buf); rewrite ?Hsize; simpl; [lia..|done]. }
    assert (d < Z.max w h) as Hover.
    { destruct (Z_lt_le_dec d (Z.max w h)) as [|Hle]; [done|].
      assert (nbytes buf <= MAX_JPEG_BYTES); [|lia].
      apply (Hsmall img buf); rewrite ?Hsize; simpl; [lia..|done]. }
    pose proof (scale_dim_bounds w Hw). pose proof (scale_dim_bounds h Hh).
    pose proof (scale_dim_max w h Hw Hh Hmax).
    apply IH; rewrite ?(Hresize _ _ _ Hres); simpl; [lia..|done|lia].
Qed.

(** Each turn that does not raise leaves an image that can be encoded, so
    with both dimensions at least 1, and a strictly smaller larger one. *)
Lemma cap_loop_shrinks_out `{Imaging} (quality : Z)
    (Hresize : ∀ (i i' : Img) (size : Z * Z), img_resize i size = inr i' -> img_size i' = size)
    (Hempty : ∀ (i : Img) (size : Z * Z),
        fst size < 1 ∨ snd size < 1 -> size ≠ img_size i ->
        ∃ e, img_resize i size = inl e)
    (Hencode : ∀ (i : Img) (b : Bytes),
        img_save_jpeg i quality = inr b ->
        1 <= fst (img_size i) ∧ 1 <= snd (img_size i))
    (fuel : nat) (img : Img) (buf : Bytes) :
  img_save_jpeg img quality = inr buf ->
  (Z.to_nat (Z.max (fst (img_size img)) (snd (img_size img))) <= fuel)%nat ->
  cap_loop fuel quality img buf ≠ None.
Proof.
  revert img buf. induction fuel as [|fuel IH]; intros img buf Henc Hfuel.
  - destruct (Hencode img buf Henc). lia.
  - destruct (Z.ltb_spec MAX_JPEG_BYTES (nbytes buf)) as [Hgt|Hle];
      [|by rewrite cap_loop_under].
    rewrite cap_loop_over by done. unfold shrink_encode.
    destruct (Hencode img buf Henc) as [Hw Hh].
    destruct (img_size img) as [w h] eqn:Hsize. simpl in *.
    pose proof (scale_dim_shrinks w Hw) as Hsw.
    destruct (img_resize img (scale_dim w, scale_dim h)) as [e|img'] eqn:Hres;
      simpl; [done|].
    destruct (img_save_jpeg img' quality) as [e|buf'] eqn:Henc'; simpl; [done|].
    destruct (Hencode img' buf' Henc') as [Hw' Hh'].
    rewrite (Hresize _ _ _ Hres) in Hw', Hh'. simpl in *.
    assert (1 <= Z.max w h) as Hmax by lia.
    pose proof (scale_dim_max w h ltac:(lia) ltac:(lia) Hmax).
    apply IH; [done|]. rewrite (Hresize _ _ _ Hres). simpl. lia.
Qed.

(** C9: the size-capping loop terminates for every image.  The image
    library resizes to the size it is asked for, refuses to resize to an
    empty size and refuses to encode an empty image; each turn makes both
    dimensions smaller, so after at most as many turns as the larger
    dimension the loop has returned a buffer or a codec call has raised,
    whatever sizes the encoder produces.  The same holds of
    [save_capped_jpeg] as a whole. *)
Theorem cap_loop_terminates `{Imaging} (quality : Z) :
  (∀ (i i' : Img) (size : Z * Z), img_resize i size = inr i' -> img_size i' = size) ->
  (∀ (i : Img) (size : Z * Z),
      fst size < 1 ∨ snd size < 1 -> size ≠ img_size i ->
      ∃ e, img_resize i size = inl e) ->
  (∀ (i : Img) (b : Bytes),
      img_save_jpeg i quality = inr b ->
      1 <= fst (img_size i) ∧ 1 <= snd (img_size i)) ->
  0 < MAX_JPEG_BYTES ∧
  (∀ w : Z, 1 <= w -> 0 <= scale_dim w < w) ∧
  (∀ (img : Img) (buf : Bytes) (fuel : nat),
      img_save_jpeg img quality = inr buf ->
      (Z.to_nat (Z.max (fst (img_size img)) (snd (img_size img))) <= fuel)%nat ->
      ∃ r : result Bytes, cap_loop fuel quality img buf = Some r) ∧
  (∀ (img : Img) (out_path : string) (w : world),
      ∃ turns : nat, ∀ fuel : nat, (turns <= fuel)%nat ->
        save_capped_jpeg fuel img out_path quality w ≠ OutOfFuel).
Proof.
  intros Hresize Hempty Hencode.
  assert (∀ (img : Img) (buf : Bytes) (fuel : nat),
      img_save_jpeg img quality = inr buf ->
      (Z.to_nat (Z.max (fst (img_size img)) (snd (img_size img))) <= fuel)%nat ->
      ∃ r : result Bytes, cap_loop fuel quality img buf = Some r) as Hloop.
  { intros img buf fuel Henc Hfuel.
    pose proof (cap_loop_shrinks_out quality Hresize Hempty Hencode fuel img buf
                  Henc Hfuel).
    destruct (cap_loop fuel quality img buf) as [r|]; [by exists r | done]. }
  split; [done|]. split; [|split; [exact Hloop|]].
  - intros w Hw. pose proof (scale_dim_bounds w). pose proof (scale_dim_shrinks w). lia.
  - intros img out_path w.
    assert (∀ img0 : Img, ∃ turns : nat, ∀ fuel : nat, (turns <= fuel)%nat ->
              bind (call (img_save_jpeg img0 quality))
                (fun buf => bind (call_loop (cap_loop fuel quality img0 buf))
                   (fun buf' => write_file out_path buf')) w ≠ OutOfFuel) as Hrest.
    { intros img0. unfold bind, call.
      destruct (img_save_jpeg img0 quality) as [e|buf0] eqn:Henc; [by exists 0%nat|].
      exists (Z.to_nat (Z.max (fst (img_size img0)) (snd (img_size img0)))).
      intros fuel Hfuel. destruct (Hloop img0 buf0 fuel Henc Hfuel) as [r ->].
      unfold call_loop, call, write_file, bind, call, modify.
      destruct r as [e|b]; [done|]. by destruct (open_for_write out_path) as [e|[]]. }
    unfold save_capped_jpeg. unfold bind at 1.
    destruct (needs_rgb (img_mode img)).
    + unfold call at 1. destruct (img_convert img "RGB") as [e|img0]; [by exists 0%nat|].
      apply Hrest.
    + unfold ret. apply Hrest.
Qed.

Lemma cap_loop_terminates_witness :
  0 < MAX_JPEG_BYTES ∧
  (∀ w : Z, 1 <= w -> 0 <= scale_dim w < w) ∧
  (∀ (img : Demo.picture) (buf : Z) (fuel : nat),
      @img_save_jpeg Demo.toy_imaging img 90 = inr buf ->
      (Z.to_nat (Z.max (fst (@img_size Demo.toy_imaging img))
                       (snd (@img_size Demo.toy_imaging img))) <= fuel)%nat ->
      ∃ r : result Z, @cap_loop Demo.toy_imaging fuel 90 img buf = Some r) ∧
  (∀ (img : Demo.picture) (out_path : string) (w : @world Demo.toy_imaging),
      ∃ turns : nat, ∀ fuel : nat, (turns <= fuel)%nat ->
        @save_capped_jpeg Demo.toy_imaging fuel img out_path 90 w ≠ OutOfFuel).
Proof.
  apply (@cap_loop_terminates Demo.toy_imaging 90).
  - intros i i' [w h]. simpl.
    destruct ((w <? 1) || (h <? 1)); [discriminate|]. by intros [= <-].
  - intros i [w h] Hsmall _. simpl in *.
    destruct (Z.ltb_spec w 1), (Z.ltb_spec h 1); simpl; eauto. lia.
  - intros [m w h] b. simpl.
    destruct (Z.ltb_spec w 1), (Z.ltb_spec h 1); simpl; try discriminate.
    intros _. lia.
Defined.

(** ** The temporary file of the unwarping stage *)

Section UnwarpStage.
Context `{Models}.

Lemma unwarp_source_rotated (img_path : string) (angle : Z) (img : Img) (s : pstate) :
  angle ≠ 0 ->
  img_save_png img (tmp_name (tmp_count (fs s))) = inr tt ->
  unwarp_source img_path angle img s
  = Done (tmp_name (tmp_count (fs s)), Some (tmp_name (tmp_count (fs s))))
      {| fs := {| files := {[tmp_name (tmp_count (fs s))]} ∪ files (fs s);
                  written := written (fs s);
                  tmp_count := S (tmp_count (fs s)) |};
         info := info s |}.
Proof.
  intros Hangle Hsave. unfold unwarp_source.
  rewrite bool_decide_eq_true_2 by done.
  unfold bind, on_fs, make_temp, call. simpl. by rewrite Hsave.
Qed.

(** When the image was rotated and the unwarping model raises, the stage
    returns the image it was given and the temporary file is still there. *)
Lemma unwarp_stage_raise_keeps_temp (img_path : string) (angle : Z) (img : Img)
    (s : pstate) (e : exn) :
  angle ≠ 0 ->
  img_save_png img (tmp_name (tmp_count (fs s))) = inr tt ->
  unwarp_predict (tmp_name (tmp_count (fs s))) img = inl e ->
  ∃ s', unwarp_stage img_path angle img s = Done img s' ∧
        tmp_name (tmp_count (fs s)) ∈ files (fs s') ∧
        info s' = info s.
Proof.
  intros Hangle Hsave Hraise. unfold unwarp_stage, try_except, bind.
  rewrite unwarp_source_rotated by done. simpl.
  unfold unwarp_apply, bind, call. rewrite Hraise. unfold ret.
  eexists. split; [done|]. simpl. split; [|done].
  apply elem_of_union_l, elem_of_singleton. done.
Qed.

(** When the model returns an array that converts, the stage deletes the
    temporary file before it returns the unwarped image. *)
Lemma unwarp_stage_success_removes_temp (img_path : string) (angle : Z)
    (img img' : Img) (a : Arr) (s : pstate) :
  angle ≠ 0 ->
  img_save_png img (tmp_name (tmp_count (fs s))) = inr tt ->
  unwarp_predict (tmp_name (tmp_count (fs s))) img = inr (UnwarpArray a) ->
  img_fromarray_bgr a = inr img' ->
  ∃ s', unwarp_stage img_path angle img s = Done img' s' ∧
        (tmp_name (tmp_count (fs s)) ∉ files (fs s')) ∧
        unwarped (info s') = true.
Proof.
  intros Hangle Hsave Hpred Harr. unfold unwarp_stage, try_except, bind.
  rewrite unwarp_source_rotated by done. simpl.
  unfold unwarp_apply, bind, call. rewrite Hpred, Harr. simpl.
  unfold tmp_name at 1. simpl.
  eexists. split; [done|]. simpl. split; [|done].
  intros Hin. apply elem_of_difference in Hin as [_ Hnot].
  apply Hnot, elem_of_singleton. done.
Qed.

End UnwarpStage.

(** C3 (the code at a failing input): page 1 of [good] is seen rotated by
    90 degrees, so the stage writes the rotated image to a temporary file;
    the unwarping model then raises.  The stage returns the rotated image,
    and the temporary file, absent before, is still there after the stage
    and after the whole run. *)
Theorem unwarp_failure_leaves_temp_file :
  ("/tmp/tmp0.png" ∉ files Demo.disk) ∧
  @ori_predict _ Demo.toy_models "good/page_1.png" = inr 90 ∧
  @unwarp_predict _ Demo.toy_models "/tmp/tmp0.png" (Demo.Picture "RGBA" 3000 4000)
  = inl (Exception "UVDoc failed") ∧
  (∃ s', @unwarp_stage _ Demo.toy_models "good/page_1.png" 90
           (Demo.Picture "RGBA" 3000 4000)
           {| fs := Demo.disk; info := new_info 1 |}
         = Done (Demo.Picture "RGBA" 3000 4000) s' ∧
         "/tmp/tmp0.png" ∈ files (fs s')) ∧
  (∃ infos w', @preprocess _ Demo.toy_models 20 "good" Demo.disk = Done infos w' ∧
               "/tmp/tmp0.png" ∈ files w').
Proof.
  split; [intros Hin; pose proof (bool_decide_pack _ Hin) as Hb; vm_compute in Hb; done|].
  split; [reflexivity|]. split; [reflexivity|]. split.
  - eexists. split; [vm_compute; reflexivity|].
    apply (bool_decide_unpack _). vm_compute. exact I.
  - eexists _, _. split; [vm_compute; reflexivity|].
    apply (bool_decide_unpack _). vm_compute. exact I.
Qed.

(** ** Page discovery ends *)

Lemma string_length_app (s t : string) :
  String.length (s +:+ t) = (String.length s + String.length t)%nat.
Proof. induction s as [|c s IH]; simpl; [done|]. by rewrite IH. Qed.

Lemma string_app_inj_r (s s' t : string) : s +:+ t = s' +:+ t -> s = s'.
Proof.
  revert s'. induction s as [|c s IH]; intros [|c' s'] Heq.
  - done.
  - apply (f_equal String.length) in Heq.
    rewrite (string_length_app "" t), (string_length_app (String c' s') t) in Heq.
    simpl in Heq. lia.
  - apply (f_equal String.length) in Heq.
    rewrite (string_length_app "" t), (string_length_app (String c s) t) in Heq.
    simpl in Heq. lia.
  - injection Heq as -> Heq. f_equal. by apply IH.
Qed.

Lemma str_nat_inj (n m : nat) : Py.str_nat n = Py.str_nat m -> n = m.
Proof.
  unfold Py.str_nat. intros Heq.
  assert (Nat.to_uint n = Nat.to_uint m) as Hu.
  { apply (f_equal NilEmpty.uint_of_string) in Heq.
    rewrite !NilEmpty.usu in Heq. by injection Heq. }
  apply (f_equal Nat.of_uint) in Hu. by rewrite !DecimalNat.Unsigned.of_to in Hu.
Qed.

Lemma page_path_inj (image_dir : string) (n m : nat) :
  page_path image_dir n = page_path image_dir m -> n = m.
Proof.
  unfold page_path, Py.path_join. intros Heq.
  apply str_nat_inj, (string_app_inj_r _ _ ".png").
  destruct (Py.truthy image_dir); [destruct (Py.ends_with_slash image_dir)|].
  - by apply (inj (String.app image_dir)), (inj (String.app "page_")) in Heq.
  - by apply (inj (String.app image_dir)), (inj (String.app "/")),
      (inj (String.app "page_")) in Heq.
  - by apply (inj (String.app "page_")) in Heq.
Qed.

(** Not all of [size files + 1] distinct page paths can exist. *)
Lemma pages_run_out (files : gset string) (image_dir : string) (start : nat) :
  ¬ ∀ j : nat, (j < S (size files))%nat -> page_path image_dir (start + j) ∈ files.
Proof.
  intros Hall.
  set (l := page_path image_dir <$> seq start (S (size files))).
  assert (NoDup l) as Hnd.
  { apply NoDup_fmap_2_strong; [|apply NoDup_seq].
    intros n m _ _. apply page_path_inj. }
  assert (list_to_set l ⊆ files) as Hsub.
  { intros p Hp. apply elem_of_list_to_set, list_elem_of_fmap in Hp as (n & -> & Hn).
    apply elem_of_seq in Hn. replace n with (start + (n - start))%nat by lia.
    apply Hall. lia. }
  apply subseteq_size in Hsub. rewrite size_list_to_set in Hsub by done.
  unfold l in Hsub. rewrite length_fmap, length_seq in Hsub. lia.
Qed.

(** Up to any bound, either every page exists or there is a first missing
    one. *)
Lemma first_missing_page (files : gset string) (image_dir : string) (start m : nat) :
  (∀ j : nat, (j < m)%nat -> page_path image_dir (start + j) ∈ files) ∨
  ∃ k : nat, (k < m)%nat ∧ (page_path image_dir (start + k) ∉ files) ∧
             ∀ j : nat, (j < k)%nat -> page_path image_dir (start + j) ∈ files.
Proof.
  induction m as [|m [IH|(k & Hk & Hmiss & Hbefore)]].
  - left. intros j Hj. lia.
  - destruct (decide (page_path image_dir (start + m) ∈ files)) as [Hin|Hout].
    + left. intros j Hj. destruct (decide (j = m)) as [->|]; [done|]. apply IH. lia.
    + right. exists m. split; [lia|]. split; [done|]. intros j Hj. by apply IH.
  - right. exists k. split; [lia|]. done.
Qed.

Lemma find_pages_stops (files : gset string) (image_dir : string)
    (k fuel start : nat) (images : list string) :
  (∀ j : nat, (j < k)%nat -> page_path image_dir (start + j) ∈ files) ->
  page_path image_dir (start + k) ∉ files ->
  (k < fuel)%nat ->
  find_pages files image_dir fuel start images
  = Some (images ++ (page_path image_dir <$> seq start k)).
Proof.
  revert fuel start images.
  induction k as [|k IH]; intros fuel start images Hbefore Hmiss Hfuel;
    (destruct fuel as [|fuel]; [lia|]); simpl.
  - rewrite Nat.add_0_r in Hmiss. rewrite bool_decide_eq_false_2 by done.
    by rewrite app_nil_r.
  - rewrite bool_decide_eq_true_2
      by (specialize (Hbefore 0%nat); rewrite Nat.add_0_r in Hbefore; apply Hbefore; lia).
    rewrite (IH fuel (S start)); [by rewrite <- app_assoc| | |lia].
    + intros j Hj. replace (S start + j)%nat with (start + S j)%nat by lia.
      apply Hbefore. lia.
    + by replace (S start + k)%nat with (start + S k)%nat by lia.
Qed.

(** The discovery loop returns once it has more turns than files exist, and
    the list it returns does not depend on how many more. *)
Lemma find_pages_terminates (files : gset string) (image_dir : string) :
  ∃ images : list string,
    ∀ fuel : nat, (size files < fuel)%nat ->
      find_pages files image_dir fuel 1 [] = Some images.
Proof.
  destruct (first_missing_page files image_dir 1 (S (size files)))
    as [Hall|(k & Hk & Hmiss & Hbefore)].
  - by destruct (pages_run_out files image_dir 1).
  - exists (page_path image_dir <$> seq 1 k). intros fuel Hfuel.
    rewrite (find_pages_stops files image_dir k fuel 1 []); [done..|lia].
Qed.

(** ** Containment of page-level errors *)

Section PageErrors.
Context `{Models}.

(** An error of the primary pipeline hands the page to the fallback, which
    starts from the state the pipeline left. *)
Lemma process_page_contains (fuel : nat) (image_dir img_path : string) (page_idx : nat)
    (s s1 : pstate) (e0 : exn) :
  primary fuel image_dir img_path page_idx s = Raised e0 s1 ->
  process_page fuel image_dir img_path page_idx s
  = fallback fuel image_dir img_path page_idx s1.
Proof. intros Hprim. unfold process_page, try_except. by rewrite Hprim. Qed.

(** A page raises only when its fallback does. *)
Lemma process_page_raised (fuel : nat) (image_dir img_path : string) (page_idx : nat)
    (s s2 : pstate) (e : exn) :
  process_page fuel image_dir img_path page_idx s = Raised e s2 ->
  ∃ e0 s1, primary fuel image_dir img_path page_idx s = Raised e0 s1 ∧
           fallback fuel image_dir img_path page_idx s1 = Raised e s2.
Proof.
  unfold process_page, try_except.
  destruct (primary fuel image_dir img_path page_idx s) as [[] s1|e0 s1|] eqn:Hprim;
    intros Hrun; try done.
  by exists e0, s1.
Qed.

Lemma preprocess_pages_raised (fuel : nat) (image_dir : string) (images : list string)
    (pages : list page_info) (w w' : world) (e : exn) :
  preprocess_pages fuel image_dir images pages w = Raised e w' ->
  ∃ (i : nat) (img_path : string) (s0 s1 s2 : pstate) (e0 : exn),
    images !! i = Some img_path ∧
    primary fuel image_dir img_path (length pages + i + 1) s0 = Raised e0 s1 ∧
    fallback fuel image_dir img_path (length pages + i + 1) s1 = Raised e s2 ∧
    fs s2 = w'.
Proof.
  revert pages w. induction images as [|p rest IH]; intros pages w; [done|].
  simpl.
  destruct (process_page fuel image_dir p (length pages + 1)
              {| fs := w; info := new_info (length pages + 1) |})
    as [[] s|e' s|] eqn:Hpage; intros Hrun; try done.
  - destruct (IH _ _ Hrun) as (i & img_path & s0 & s1 & s2 & e0 & Hi & Hprim & Hfb & Hw).
    exists (S i), img_path, s0, s1, s2, e0. rewrite length_app in Hprim, Hfb. simpl in *.
    replace (length pages + S i + 1)%nat with (length pages + 1 + i + 1)%nat by lia.
    done.
  - injection Hrun as <- <-.
    destruct (process_page_raised _ _ _ _ _ _ _ Hpage) as (e0 & s1 & Hprim & Hfb).
    eexists 0%nat, p, _, s1, s, e0. rewrite Nat.add_0_r. done.
Qed.

Lemma preprocess_pages_done (fuel : nat) (image_dir : string) (images : list string)
    (pages infos : list page_info) (w w' : world) :
  preprocess_pages fuel image_dir images pages w = Done infos w' ->
  length infos = (length pages + length images)%nat.
Proof.
  revert pages w. induction images as [|p rest IH]; intros pages w; simpl.
  - unfold ret. intros [= <- <-]. lia.
  - destruct (process_page fuel image_dir p (length pages + 1)
                {| fs := w; info := new_info (length pages + 1) |})
      as [[] s|e' s|]; intros Hrun; try done.
    rewrite (IH _ _ Hrun), length_app. simpl. lia.
Qed.

(** The loop over a list of pages is the loop over a first part followed by
    the loop over the rest, which starts from the entries and the files the
    first part left. *)
Lemma preprocess_pages_app (fuel : nat) (image_dir : string) (l1 l2 : list string)
    (pages : list page_info) (w : world) :
  preprocess_pages fuel image_dir (l1 ++ l2) pages w
  = match preprocess_pages fuel image_dir l1 pages w with
    | Done infos w1 => preprocess_pages fuel image_dir l2 infos w1
    | Raised e w1 => Raised e w1
    | OutOfFuel => OutOfFuel
    end.
Proof.
  revert pages w. induction l1 as [|p l1 IH]; intros pages w; [done|].
  simpl.
  destruct (process_page fuel image_dir p (length pages + 1)
              {| fs := w; info := new_info (length pages + 1) |})
    as [[] s|e' s|]; [apply IH|done..].
Qed.

(** The run once the pages before page [i + 1] have returned: what is left
    is that page, then the pages after it. *)
Lemma preprocess_at_page (fuel : nat) (image_dir : string) (images : list string)
    (i : nat) (img_path : string) (infos : list page_info) (w wi : world) :
  find_pages (files w) image_dir fuel 1 [] = Some images ->
  images !! i = Some img_path ->
  preprocess_pages fuel image_dir (take i images) [] w = Done infos wi ->
  preprocess fuel image_dir w
  = match process_page fuel image_dir img_path (S i)
            {| fs := wi; info := new_info (S i) |} with
    | Done _ s =>
        preprocess_pages fuel image_dir (drop (S i) images) (infos ++ [info s]) (fs s)
    | Raised e s => Raised e (fs s)
    | OutOfFuel => OutOfFuel
    end.
Proof.
  intros Hfind Hi Hbefore. unfold preprocess. rewrite Hfind.
  pose proof (preprocess_pages_done _ _ _ _ _ _ _ Hbefore) as Hlen.
  rewrite length_take in Hlen. apply lookup_lt_Some in Hi as Hlt.
  simpl in Hlen. rewrite Nat.min_l in Hlen by lia.
  transitivity (preprocess_pages fuel image_dir images [] w).
  { by destruct images. }
  rewrite <- (take_drop_middle images i img_path Hi) at 1.
  rewrite preprocess_pages_app, Hbefore. simpl.
  by replace (length infos + 1)%nat with (S i) by lia.
Qed.

End PageErrors.

(** C4 (as stated, refuted): [scan] holds five pages, and page 2 is a file
    the image library cannot open.  The primary pipeline of page 2 raises,
    its fallback opens the same file and raises again, and that exception
    leaves [preprocess]: pages 3 to 5 are not processed. *)
Lemma corrupt_page_aborts_preprocess :
  find_pages (files Demo.disk) "scan" 20 1 [] = Some Demo.scan_images ∧
  Demo.scan_images ≠ [] ∧
  ∃ w', @preprocess _ Demo.toy_models 20 "scan" Demo.disk
        = Raised (Exception "cannot identify image file") w' ∧
        written w' !! "scan/page_3_pre.jpg" = None.
Proof.
  split; [vm_compute; reflexivity|]. split; [discriminate|].
  eexists. split; [vm_compute; reflexivity|]. vm_compute. reflexivity.
Qed.

(** C4 (amended): page discovery ends.  In the text path, when pages were
    found, [extract] returns a document with one text per page and raises
    nothing: the text of a page whose processing raised is the placeholder
    that carries the error, the text of every other page is what its
    processing returned, and [extract] raises only the no-pages error, when
    no page was found.  In the preprocessing path an error raised by a page's
    primary pipeline (orientation, rotation, unwarping, encoding) is caught,
    and the page is produced by the fallback, which reopens the original and
    encodes it; when the fallback returns, the page has its entry and the
    loop goes on with the next page.  An error raised by the fallback itself
    is not caught: it ends the run, the pages after it are not processed, and
    [preprocess] raises that error.  So [preprocess] raises either the
    no-pages error or the error of some page's fallback, and when it returns,
    every page found has its entry. *)
Theorem page_errors_contained `{Interpreter} (E : OcrEngine) `{Models}
    (fuel : nat) (image_dir : string) :
  (∀ present : gset string,
      ∃ images : list string,
        ∀ turns : nat, (size present < turns)%nat ->
          find_pages present image_dir turns 1 [] = Some images) ∧
  (∀ (present : gset string) (images : list string),
      find_pages present image_dir fuel 1 [] = Some images -> images ≠ [] ->
      ∃ doc, @extract _ E present fuel image_dir = Some (inr doc) ∧
             length (pages doc) = length images ∧
             (∀ (i : nat) (img_path : string) (e : exn),
                 images !! i = Some img_path ->
                 @try_page _ E img_path = inl e ->
                 pages doc !! i = Some (extraction_failed e)) ∧
             (∀ (i : nat) (img_path text : string),
                 images !! i = Some img_path ->
                 @try_page _ E img_path = inr text ->
                 pages doc !! i = Some text)) ∧
  (∀ (present : gset string) (e : exn),
      @extract _ E present fuel image_dir = Some (inl e) ->
      find_pages present image_dir fuel 1 [] = Some [] ∧
      e = no_pages_error image_dir) ∧
  (∀ (img_path : string) (page_idx : nat) (s s1 : pstate) (e0 : exn),
      primary fuel image_dir img_path page_idx s = Raised e0 s1 ->
      process_page fuel image_dir img_path page_idx s
      = fallback fuel image_dir img_path page_idx s1) ∧
  (∀ (w w' : world) (e : exn),
      preprocess fuel image_dir w = Raised e w' ->
      (find_pages (files w) image_dir fuel 1 [] = Some [] ∧
       e = no_pages_error image_dir) ∨
      (∃ (images : list string) (i : nat) (img_path : string)
         (s0 s1 s2 : pstate) (e0 : exn),
          find_pages (files w) image_dir fuel 1 [] = Some images ∧
          images !! i = Some img_path ∧
          primary fuel image_dir img_path (S i) s0 = Raised e0 s1 ∧
          fallback fuel image_dir img_path (S i) s1 = Raised e s2 ∧
          fs s2 = w')) ∧
  (∀ (w w' : world) (infos : list page_info),
      preprocess fuel image_dir w = Done infos w' ->
      ∃ images : list string,
        find_pages (files w) image_dir fuel 1 [] = Some images ∧
        images ≠ [] ∧ length infos = length images) ∧
  (∀ (w wi : world) (images : list string) (i : nat) (img_path : string)
     (infos : list page_info) (s1 s2 : pstate) (e0 e : exn),
      find_pages (files w) image_dir fuel 1 [] = Some images ->
      images !! i = Some img_path ->
      preprocess_pages fuel image_dir (take i images) [] w = Done infos wi ->
      primary fuel image_dir img_path (S i) {| fs := wi; info := new_info (S i) |}
      = Raised e0 s1 ->
      fallback fuel image_dir img_path (S i) s1 = Raised e s2 ->
      preprocess fuel image_dir w = Raised e (fs s2)) ∧
  (∀ (w wi : world) (images : list string) (i : nat) (img_path : string)
     (infos : list page_info) (s1 s2 : pstate) (e0 : exn),
      find_pages (files w) image_dir fuel 1 [] = Some images ->
      images !! i = Some img_path ->
      preprocess_pages fuel image_dir (take i images) [] w = Done infos wi ->
      primary fuel image_dir img_path (S i) {| fs := wi; info := new_info (S i) |}
      = Raised e0 s1 ->
      fallback fuel image_dir img_path (S i) s1 = Done tt s2 ->
      length (infos ++ [info s2]) = S i ∧
      preprocess fuel image_dir w
      = preprocess_pages fuel image_dir (drop (S i) images)
          (infos ++ [info s2]) (fs s2)).
Proof.
  split; [|split; [|split; [|split; [|split; [|split; [|split]]]]]].
  - intros present. apply find_pages_terminates.
  - intros present images Hfind Hne. eexists.
    split; [by apply extract_nonempty|]. simpl.
    split; [by rewrite length_fmap|].
    split.
    + intros i img_path e Hi Hraise. rewrite list_lookup_fmap, Hi. simpl.
      unfold page_text. by rewrite Hraise.
    + intros i img_path text Hi Hret. rewrite list_lookup_fmap, Hi. simpl.
      unfold page_text. by rewrite Hret.
  - intros present e. unfold extract.
    destruct (find_pages present image_dir fuel 1 []) as [[|p images]|]; simpl;
      [|done..].
    by intros [= <-].
  - intros img_path page_idx s s1 e0. apply process_page_contains.
  - intros w w' e. unfold preprocess.
    destruct (find_pages (files w) image_dir fuel 1 []) as [[|p images]|] eqn:Hfind;
      [| |done].
    + intros [= <- <-]. by left.
    + intros Hrun. right.
      destruct (preprocess_pages_raised _ _ _ _ _ _ _ Hrun)
        as (i & img_path & s0 & s1 & s2 & e0 & Hi & Hprim & Hfb & Hw).
      exists (p :: images), i, img_path, s0, s1, s2, e0.
      replace (length (@nil page_info) + i + 1)%nat with (S i) in Hprim, Hfb
        by (simpl; lia).
      done.
  - intros w w' infos. unfold preprocess.
    destruct (find_pages (files w) image_dir fuel 1 []) as [[|p images]|] eqn:Hfind;
      [done| |done].
    intros Hrun. exists (p :: images). split; [done|]. split; [done|].
    by rewrite (preprocess_pages_done _ _ _ _ _ _ _ Hrun).
  - intros w wi images i img_path infos s1 s2 e0 e Hfind Hi Hbefore Hprim Hfb.
    rewrite (preprocess_at_page _ _ _ _ _ _ _ _ Hfind Hi Hbefore).
    by rewrite (process_page_contains _ _ _ _ _ _ _ Hprim), Hfb.
  - intros w wi images i img_path infos s1 s2 e0 Hfind Hi Hbefore Hprim Hfb.
    split.
    + rewrite length_app, (preprocess_pages_done _ _ _ _ _ _ _ Hbefore), length_take.
      apply lookup_lt_Some in Hi. simpl. lia.
    + rewrite (preprocess_at_page _ _ _ _ _ _ _ _ Hfind Hi Hbefore).
      by rewrite (process_page_contains _ _ _ _ _ _ _ Hprim), Hfb.
Qed.

Lemma page_errors_contained_witness :
  @process_page _ Demo.toy_models 20 "good" "good/page_2.png" 2
    {| fs := Demo.disk; info := new_info 2 |}
  = @fallback Demo.toy_imaging 20 "good" "good/page_2.png" 2
      {| fs := Demo.disk; info := new_info 2 |} ∧
  ∃ w', @preprocess _ Demo.toy_models 20 "scan" Demo.disk
        = Raised (Exception "cannot identify image file") w'.
Proof.
  split.
  - apply (proj1 (proj2 (proj2 (proj2
             (@page_errors_contained cpython_3_11 Demo.scan_engine _ Demo.toy_models
                20 "good"))))
             "good/page_2.png" 2%nat _ _ (Exception "orientation failed")).
    vm_compute. reflexivity.
  - eexists.
    eapply (proj1 (proj2 (proj2 (proj2 (proj2 (proj2 (proj2
              (@page_errors_contained cpython_3_11 Demo.scan_engine _ Demo.toy_models
                 20 "scan")))))))
              Demo.disk _ Demo.scan_images 1%nat "scan/page_2.png").
    + vm_compute. reflexivity.
    + vm_compute. reflexivity.
    + vm_compute. reflexivity.
    + vm_compute. reflexivity.
    + vm_compute. reflexivity.
Defined.

(** * Further properties *)

(** ** The sorts of [build_clean_text] *)

Section SortFacts.
Context {A : Type} (leb : A -> A -> bool).
Hypothesis leb_total : ∀ a b, leb a b = true ∨ leb b a = true.
Hypothesis leb_trans : ∀ a b c, leb a b = true -> leb b c = true -> leb a c = true.

Lemma insert_sorted_perm (a : A) (l : list A) : insert_sorted leb a l ≡ₚ a :: l.
Proof.
  induction l as [|b l IH]; simpl; [done|].
  destruct (leb a b); [done|]. rewrite IH. apply Permutation_swap.
Qed.

Lemma stable_sort_perm (l : list A) : stable_sort leb l ≡ₚ l.
Proof.
  induction l as [|a l IH]; simpl; [done|].
  rewrite insert_sorted_perm. by rewrite IH.
Qed.

Lemma insert_sorted_sorted (a : A) (l : list A) :
  StronglySorted (fun x y => leb x y = true) l ->
  StronglySorted (fun x y => leb x y = true) (insert_sorted leb a l).
Proof.
  induction 1 as [|b l Hl IH Hb]; simpl.
  - repeat constructor.
  - destruct (leb a b) eqn:Hab.
    + constructor; [by constructor|]. constructor; [done|].
      eapply Forall_impl; [exact Hb|]. intros c Hc. by eapply leb_trans.
    + constructor; [done|].
      rewrite insert_sorted_perm. constructor; [|done].
      destruct (leb_total a b) as [Hc|Hc]; [congruence | done].
Qed.

Lemma stable_sort_sorted (l : list A) :
  StronglySorted (fun x y => leb x y = true) (stable_sort leb l).
Proof.
  induction l as [|a l IH]; simpl; [constructor|]. by apply insert_sorted_sorted.
Qed.

(** Stability: among elements that compare equal the inserted one goes
    first, so a class of equal keys keeps the order of the input. *)
Lemma insert_sorted_filter (P : A -> Prop) `{∀ x, Decision (P x)} (a : A) (l : list A) :
  (∀ x y, P x -> P y -> leb x y = true) ->
  filter P (insert_sorted leb a l) = filter P (a :: l).
Proof.
  intros Hclass. induction l as [|b l IH]; simpl; [done|].
  destruct (leb a b) eqn:Hab; [done|].
  rewrite !filter_cons in *. rewrite IH.
  destruct (decide (P a)) as [Ha|Ha]; [|done].
  destruct (decide (P b)) as [Hb|Hb]; [|done].
  rewrite (Hclass a b Ha Hb) in Hab. done.
Qed.

Lemma stable_sort_filter (P : A -> Prop) `{∀ x, Decision (P x)} (l : list A) :
  (∀ x y, P x -> P y -> leb x y = true) ->
  filter P (stable_sort leb l) = filter P l.
Proof.
  intros Hclass. induction l as [|a l IH]; simpl; [done|].
  rewrite insert_sorted_filter by done. rewrite !filter_cons. by rewrite IH.
Qed.

End SortFacts.

Lemma key_yx_leb_total (a b : fragment) : key_yx_leb a b = true ∨ key_yx_leb b a = true.
Proof.
  unfold key_yx_leb.
  destruct (Z.ltb_spec (f_y a) (f_y b)), (Z.ltb_spec (f_y b) (f_y a)),
    (Z.eqb_spec (f_y a) (f_y b)), (Z.eqb_spec (f_y b) (f_y a)),
    (Z.leb_spec (f_x a) (f_x b)), (Z.leb_spec (f_x b) (f_x a)); simpl; auto; lia.
Qed.

Lemma key_yx_leb_spec (a b : fragment) :
  key_yx_leb a b = true <-> f_y a < f_y b ∨ (f_y a = f_y b ∧ f_x a <= f_x b).
Proof.
  unfold key_yx_leb.
  destruct (Z.ltb_spec (f_y a) (f_y b)), (Z.eqb_spec (f_y a) (f_y b)),
    (Z.leb_spec (f_x a) (f_x b)); simpl; split; intros; try done; lia.
Qed.

Lemma key_yx_leb_trans (a b c : fragment) :
  key_yx_leb a b = true -> key_yx_leb b c = true -> key_yx_leb a c = true.
Proof. rewrite !key_yx_leb_spec. lia. Qed.

Lemma key_x_leb_total (a b : fragment) : key_x_leb a b = true ∨ key_x_leb b a = true.
Proof.
  unfold key_x_leb.
  destruct (Z.leb_spec (f_x a) (f_x b)), (Z.leb_spec (f_x b) (f_x a)); auto; lia.
Qed.

Lemma key_x_leb_trans (a b c : fragment) :
  key_x_leb a b = true -> key_x_leb b c = true -> key_x_leb a c = true.
Proof. unfold key_x_leb. rewrite !Z.leb_le. lia. Qed.

(** X1: the sort by [(y, x)] keeps every fragment exactly once, leaves the
    list ordered by the key, and keeps fragments with the same key in the
    order they came in. *)
Theorem sort_by_yx_stable (l : list fragment) :
  stable_sort key_yx_leb l ≡ₚ l ∧
  yx_sorted (stable_sort key_yx_leb l) ∧
  ∀ k : Z * Z,
    filter (fun f => key_yx f = k) (stable_sort key_yx_leb l)
    = filter (fun f => key_yx f = k) l.
Proof.
  split; [apply stable_sort_perm|]. split.
  - apply stable_sort_sorted; [apply key_yx_leb_total | apply key_yx_leb_trans].
  - intros k. apply stable_sort_filter.
    intros x y Hx Hy. apply key_yx_leb_spec.
    unfold key_yx in *. destruct k as [ky kx]. injection Hx as <- <-.
    injection Hy as Hy1 Hy2. lia.
Qed.

(** ** Rows of a sorted page *)

Lemma StronglySorted_weaken {A} (R R' : A -> A -> Prop) (l : list A) :
  (∀ a b, R a b -> R' a b) -> StronglySorted R l -> StronglySorted R' l.
Proof.
  intros Himp. induction 1 as [|a l Hl IH Ha]; constructor; [done|].
  eapply Forall_impl; [exact Ha|]. auto.
Qed.

Lemma key_yx_leb_y (a b : fragment) : key_yx_leb a b = true -> f_y a <= f_y b.
Proof. rewrite key_yx_leb_spec. lia. Qed.

(** A row of a sorted page: it starts with its anchor and every fragment
    lies in the band of 50 units that starts at the anchor's y. *)
Lemma group_from_sorted_band (l : list fragment) (a : fragment) (cur : row) :
  head cur = Some a ->
  Forall (fun f => f_y a <= f_y f < f_y a + ROW_THRESHOLD) cur ->
  yx_sorted l ->
  Forall (fun f => f_y a <= f_y f) l ->
  Forall (fun r => ∃ a', head r = Some a' ∧
                         Forall (fun f => f_y a' <= f_y f < f_y a' + ROW_THRESHOLD) r)
         (group_from a cur l).
Proof.
  revert a cur. induction l as [|f l IH]; intros a cur Hhd Hcur Hsorted Hge; simpl.
  - constructor; [|constructor]. by exists a.
  - apply StronglySorted_inv in Hsorted as [Hsorted Hf].
    apply Forall_cons in Hge as [Hfa Hge].
    destruct (Z.ltb_spec (Z.abs (f_y f - f_y a)) ROW_THRESHOLD) as [Hlt|Hfar].
    + apply IH; [by destruct cur| |done..].
      apply Forall_app. split; [done|]. constructor; [lia|constructor].
    + constructor; [by exists a|].
      apply IH; [done| |done|].
      * constructor; [unfold ROW_THRESHOLD; lia|constructor].
      * eapply Forall_impl; [exact Hf|]. intros g. apply key_yx_leb_y.
Qed.

Lemma group_from_sorted_apart (l : list fragment) (a : fragment) (cur : row) (i : nat)
    (r1 r2 : row) (a1 a2 : fragment) :
  head cur = Some a ->
  yx_sorted l ->
  Forall (fun f => f_y a <= f_y f) l ->
  group_from a cur l !! i = Some r1 ->
  group_from a cur l !! S i = Some r2 ->
  head r1 = Some a1 -> head r2 = Some a2 ->
  f_y a1 + ROW_THRESHOLD <= f_y a2.
Proof.
  revert a cur i.
  induction l as [|f l IH]; intros a cur i Hhd Hsorted Hge H1 H2 Ha1 Ha2; simpl in *.
  - done.
  - apply StronglySorted_inv in Hsorted as [Hsorted Hf].
    apply Forall_cons in Hge as [Hfa Hge].
    assert (Forall (fun g => f_y f <= f_y g) l) as Hgf.
    { eapply Forall_impl; [exact Hf|]. intros g. apply key_yx_leb_y. }
    destruct (Z.ltb_spec (Z.abs (f_y f - f_y a)) ROW_THRESHOLD) as [Hlt|Hfar].
    + eapply (IH a (cur ++ [f]) i); eauto. by destruct cur.
    + destruct i as [|i]; simpl in *.
      * destruct (group_from_head l f [f] eq_refl) as (r & rows & Hg & Hr).
        rewrite Hg in H2. simpl in H2. simplify_eq. lia.
      * eapply (IH f [f] i); eauto.
Qed.

Lemma sorted_tail_above (a : fragment) (l : list fragment) :
  yx_sorted (a :: l) -> yx_sorted l ∧ Forall (fun f => f_y a <= f_y f) l.
Proof.
  intros Hs. apply StronglySorted_inv in Hs as [Hs Ha]. split; [done|].
  eapply Forall_impl; [exact Ha|]. intros g. apply key_yx_leb_y.
Qed.

(** X2: in the rows of [build_clean_text] two fragments of the same row
    are less than 50 units apart in y; fragments 50 or more apart are never
    on one line. *)
Theorem same_row_within_threshold (l : list fragment) (r : row) (f g : fragment) :
  r ∈ group_rows (stable_sort key_yx_leb l) ->
  f ∈ r -> g ∈ r ->
  Z.abs (f_y f - f_y g) < ROW_THRESHOLD.
Proof.
  intros Hr Hf Hg.
  pose proof (stable_sort_sorted key_yx_leb key_yx_leb_total key_yx_leb_trans l) as Hs.
  destruct (stable_sort key_yx_leb l) as [|a s]; [by apply elem_of_nil in Hr|].
  rewrite group_rows_cons in Hr.
  destruct (sorted_tail_above a s Hs) as [Hs' Hge].
  assert (Forall (fun f => f_y a <= f_y f < f_y a + ROW_THRESHOLD) [a]) as Hcur
    by (constructor; [unfold ROW_THRESHOLD; lia | constructor]).
  pose proof (group_from_sorted_band s a [a] eq_refl Hcur Hs' Hge) as Hband.
  apply (proj1 (Forall_forall _ _)) with (x := r) in Hband as (a' & _ & Hall);
    [|done].
  pose proof (proj1 (Forall_forall _ _) Hall f Hf).
  pose proof (proj1 (Forall_forall _ _) Hall g Hg). simpl in *. lia.
Qed.

Lemma same_row_within_threshold_witness :
  Z.abs (f_y (Fragment "$4.50" 198 300) - f_y (Fragment "Eggs" 200 10)) < ROW_THRESHOLD.
Proof.
  apply (same_row_within_threshold Demo.receipt
           [Fragment "$4.50" 198 300; Fragment "Eggs" 200 10]).
  - change (group_rows (stable_sort key_yx_leb Demo.receipt))
      with [[Fragment "Milk" 100 10; Fragment "$3.99" 102 300];
            [Fragment "$4.50" 198 300; Fragment "Eggs" 200 10]].
    repeat constructor.
  - repeat constructor.
  - repeat constructor.
Defined.

(** X3: the rows come in reading order.  The first fragment of each row is
    at least 50 units below the first fragment of the row before it, and
    within a serialized row the fragments are ordered by x. *)
Theorem rows_in_reading_order (l : list fragment) :
  Forall x_sorted (output_rows l) ∧
  ∀ (i : nat) (r1 r2 : row) (a1 a2 : fragment),
    group_rows (stable_sort key_yx_leb l) !! i = Some r1 ->
    group_rows (stable_sort key_yx_leb l) !! S i = Some r2 ->
    head r1 = Some a1 -> head r2 = Some a2 ->
    f_y a1 + ROW_THRESHOLD <= f_y a2.
Proof.
  split.
  - unfold output_rows. apply Forall_fmap, Forall_forall. intros r _. simpl.
    apply (StronglySorted_weaken (fun a b => key_x_leb a b = true)).
    + intros a b. unfold key_x_leb. apply Z.leb_le.
    + apply stable_sort_sorted; [apply key_x_leb_total | apply key_x_leb_trans].
  - intros i r1 r2 a1 a2.
    pose proof (stable_sort_sorted key_yx_leb key_yx_leb_total key_yx_leb_trans l) as Hs.
    destruct (stable_sort key_yx_leb l) as [|a s]; [done|].
    rewrite group_rows_cons. destruct (sorted_tail_above a s Hs) as [Hs' Hge].
    by apply group_from_sorted_apart.
Qed.

Lemma rows_in_reading_order_witness :
  f_y (Fragment "Milk" 100 10) + ROW_THRESHOLD <= f_y (Fragment "$4.50" 198 300).
Proof.
  apply (proj2 (rows_in_reading_order Demo.receipt) 0%nat
           [Fragment "Milk" 100 10; Fragment "$3.99" 102 300]
           [Fragment "$4.50" 198 300; Fragment "Eggs" 200 10]);
    reflexivity.
Defined.

Lemma concat_sorted_rows (rows : list row) :
  concat (stable_sort key_x_leb <$> rows) ≡ₚ concat rows.
Proof.
  induction rows as [|r rows IH]; simpl; [done|].
  by rewrite stable_sort_perm, IH.
Qed.

(** X4: the serialized rows hold every input fragment exactly once: no
    fragment is dropped and none is repeated. *)
Theorem output_rows_keep_fragments (l : list fragment) :
  concat (output_rows l) ≡ₚ l.
Proof.
  unfold output_rows. rewrite concat_sorted_rows.
  transitivity (stable_sort key_yx_leb l); [|apply stable_sort_perm].
  destruct (stable_sort key_yx_leb l) as [|a s]; [done|].
  rewrite group_rows_cons, group_from_concat. done.
Qed.

Lemma NoDup_fmap_eq {A B} (f : A -> B) (l : list A) (x y : A) :
  NoDup (f <$> l) -> x ∈ l -> y ∈ l -> f x = f y -> x = y.
Proof.
  induction l as [|a l IH]; intros Hnd Hx Hy Hf; [by apply elem_of_nil in Hx|].
  rewrite fmap_cons in Hnd. apply NoDup_cons in Hnd as [Ha Hnd].
  apply elem_of_cons in Hx as [->|Hx]; apply elem_of_cons in Hy as [->|Hy].
  - done.
  - destruct Ha. rewrite Hf. by apply list_elem_of_fmap_2.
  - destruct Ha. rewrite <- Hf. by apply list_elem_of_fmap_2.
  - by apply IH.
Qed.

(** X5: when no two fragments share the position [(y, x)], the text does not
    depend on the order in which the fragments are given. *)
Theorem build_clean_text_order_independent (l l' : list fragment) :
  l ≡ₚ l' ->
  NoDup (key_yx <$> l) ->
  build_clean_text l = build_clean_text l'.
Proof.
  intros Hperm Hnd.
  assert (stable_sort key_yx_leb l = stable_sort key_yx_leb l') as Hsort.
  { apply (StronglySorted_unique_strong (fun a b => key_yx_leb a b = true)).
    - intros x1 x2 Hx1 Hx2 H12 H21.
      rewrite stable_sort_perm in Hx1. rewrite stable_sort_perm, <- Hperm in Hx2.
      apply (NoDup_fmap_eq key_yx l); [done..|].
      apply key_yx_leb_spec in H12, H21. unfold key_yx. f_equal; lia.
    - apply stable_sort_sorted; [apply key_yx_leb_total | apply key_yx_leb_trans].
    - apply stable_sort_sorted; [apply key_yx_leb_total | apply key_yx_leb_trans].
    - by rewrite !stable_sort_perm. }
  destruct l as [|a l], l' as [|a' l'].
  - done.
  - by apply Permutation_nil_cons in Hperm.
  - symmetry in Hperm. by apply Permutation_nil_cons in Hperm.
  - unfold build_clean_text. by rewrite Hsort.
Qed.

Lemma build_clean_text_order_independent_witness :
  build_clean_text Demo.receipt = build_clean_text (reverse Demo.receipt).
Proof.
  apply build_clean_text_order_independent.
  - symmetry. apply reverse_Permutation.
  - apply (bool_decide_unpack _). vm_compute. exact I.
Defined.

(** ** What the collection loops keep *)

Lemma page_fragments_items `{Interpreter} (p : page_result) :
  page_fragments p = collect (page_items p) [].
Proof. by destruct p. Qed.

Lemma collect_item_kept `{Interpreter} (text : string) (score : float) (poly : polygon) (f : fragment) :
  collect_item text score poly = inr (Some f) ->
  below_confidence score = false ∧ f_text f = Py.strip text ∧ f_text f ≠ "" ∧
  ∃ x_min y_min, py_min (fst <$> poly) = inr x_min ∧
                 py_min (snd <$> poly) = inr y_min ∧
                 f_x f = py_int x_min ∧ f_y f = py_int y_min.
Proof.
  unfold collect_item, skipped.
  destruct (below_confidence score); [done|]. simpl.
  destruct (Py.strip text) as [|c t] eqn:Hstrip; [done|]. simpl.
  destruct (py_min (fst <$> poly)) as [e|x_min]; [done|]. simpl.
  destruct (py_min (snd <$> poly)) as [e|y_min]; [done|]. simpl.
  intros [= <-]. simpl. split; [done|]. split; [done|]. split; [done|].
  by exists x_min, y_min.
Qed.

Lemma collect_sound `{Interpreter} (items : list (string * float * polygon)) (acc frs : list fragment) :
  collect items acc = inr frs ->
  ∀ f, f ∈ frs ->
    f ∈ acc ∨ ∃ text score poly, (text, score, poly) ∈ items ∧
                                  collect_item text score poly = inr (Some f).
Proof.
  revert acc. induction items as [|[[text score] poly] items IH]; intros acc; simpl.
  - intros [= <-] f Hf. by left.
  - destruct (collect_item text score poly) as [e|[f0|]] eqn:Hitem; simpl; [done|..];
      intros Hrun f Hf; destruct (IH _ Hrun f Hf) as [Hacc|(t & s & p & Hin & Hk)].
    + apply elem_of_app in Hacc as [Hacc|Hnew]; [by left|].
      apply list_elem_of_singleton in Hnew as ->. right.
      exists text, score, poly. split; [left|done].
    + right. exists t, s, p. split; [by right|done].
    + by left.
    + right. exists t, s, p. split; [by right|done].
Qed.

Lemma collect_length `{Interpreter} (items : list (string * float * polygon)) (acc frs : list fragment) :
  collect items acc = inr frs -> (length frs <= length acc + length items)%nat.
Proof.
  revert acc. induction items as [|[[text score] poly] items IH]; intros acc; simpl.
  - intros [= <-]. lia.
  - destruct (collect_item text score poly) as [e|[f0|]]; simpl; [done|..];
      intros Hrun; apply IH in Hrun; rewrite ?length_app in Hrun; simpl in *; lia.
Qed.

(** X6: every fragment collected from a page result, of either shape, comes
    from an item whose score is not below the threshold; its text is that
    item's text stripped, and is not empty.  There are no more fragments
    than items. *)
Theorem collected_fragments_pass_filters `{Interpreter} (p : page_result) (frs : list fragment) :
  page_fragments p = inr frs ->
  (length frs <= length (page_items p))%nat ∧
  ∀ f, f ∈ frs ->
    f_text f ≠ "" ∧
    ∃ text score poly,
      (text, score, poly) ∈ page_items p ∧
      f_text f = Py.strip text ∧ below_confidence score = false.
Proof.
  rewrite page_fragments_items. intros Hrun. split.
  - apply collect_length in Hrun. simpl in Hrun. lia.
  - intros f Hf.
    destruct (collect_sound _ _ _ Hrun f Hf) as [Hnil|(t & s & q & Hin & Hk)];
      [by apply elem_of_nil in Hnil|].
    destruct (collect_item_kept _ _ _ _ Hk) as (Hconf & Htext & Hne & _).
    split; [done|]. by exists t, s, q.
Qed.

Lemma collected_fragments_pass_filters_witness :
  (length [Fragment "Eggs" 200 10] <= length (page_items (PLegacy Demo.page5_lines)))%nat ∧
  ∀ f, f ∈ [Fragment "Eggs" 200 10] ->
    f_text f ≠ "" ∧
    ∃ text score poly,
      (text, score, poly) ∈ page_items (PLegacy Demo.page5_lines) ∧
      f_text f = Py.strip text ∧ below_confidence score = false.
Proof.
  apply (@collected_fragments_pass_filters cpython_3_11 (PLegacy Demo.page5_lines)).
  vm_compute. reflexivity.
Defined.

(** ** The anchor of a fragment *)

Lemma py_min_fold (q : Q) (l : list Q) :
  let m := foldl (fun m x => if Qle_bool m x then m else x) q l in
  (m = q ∨ m ∈ l) ∧ Qle m q ∧ Forall (Qle m) l.
Proof.
  revert q. induction l as [|x l IH]; intros q; simpl.
  - split; [by left|]. split; [apply Qle_refl | constructor].
  - destruct (Qle_bool q x) eqn:Hqx.
    + destruct (IH q) as (Hin & Hq & Hall). split; [|split; [done|]].
      * destruct Hin as [->|Hin]; [by left | right; by right].
      * constructor; [|done]. apply Qle_bool_iff in Hqx. by eapply Qle_trans.
    + destruct (IH x) as (Hin & Hx & Hall).
      assert (Qle x q) as Hxq.
      { apply Qlt_le_weak, Qnot_le_lt. intros Hle.
        apply Qle_bool_iff in Hle. congruence. }
      split; [|split].
      * right. destruct Hin as [->|Hin]; [left | by right].
      * by eapply Qle_trans.
      * by constructor.
Qed.

Lemma py_min_least `{Interpreter} (l : list Q) (m : Q) :
  py_min l = inr m -> m ∈ l ∧ Forall (Qle m) l.
Proof.
  destruct l as [|q l]; simpl; [done|]. intros [= <-].
  destruct (py_min_fold q l) as (Hin & Hq & Hall). split.
  - destruct Hin as [->|Hin]; [left | by right].
  - by constructor.
Qed.

(** X7: the anchor of a kept item is the top-left corner of its polygon's
    bounding box: its x is the truncation of an x coordinate of some vertex
    that no vertex undercuts, and likewise its y. *)
Theorem anchor_is_top_left `{Interpreter} (text : string) (score : float) (poly : polygon)
    (f : fragment) :
  collect_item text score poly = inr (Some f) ->
  ∃ x_min y_min : Q,
    f_x f = py_int x_min ∧ f_y f = py_int y_min ∧
    x_min ∈ (fst <$> poly) ∧ y_min ∈ (snd <$> poly) ∧
    Forall (fun v => Qle x_min (fst v) ∧ Qle y_min (snd v)) poly.
Proof.
  intros Hk. destruct (collect_item_kept _ _ _ _ Hk)
    as (_ & _ & _ & x_min & y_min & Hx & Hy & Hfx & Hfy).
  destruct (py_min_least _ _ Hx) as [Hxin Hxall].
  destruct (py_min_least _ _ Hy) as [Hyin Hyall].
  exists x_min, y_min. repeat (split; [done|]).
  rewrite Forall_fmap in Hxall, Hyall.
  apply Forall_forall. intros v Hv. split.
  - by apply (proj1 (Forall_forall _ _) Hxall v).
  - by apply (proj1 (Forall_forall _ _) Hyall v).
Qed.

Lemma anchor_is_top_left_witness :
  ∃ x_min y_min : Q,
    f_x (Fragment "Eggs" 200 10) = py_int x_min ∧
    f_y (Fragment "Eggs" 200 10) = py_int y_min ∧
    x_min ∈ (fst <$> Demo.box_at 10 200 80 20) ∧
    y_min ∈ (snd <$> Demo.box_at 10 200 80 20) ∧
    Forall (fun v => Qle x_min (fst v) ∧ Qle y_min (snd v)) (Demo.box_at 10 200 80 20).
Proof.
  apply (@anchor_is_top_left cpython_3_11 "Eggs" 0.75%float (Demo.box_at 10 200 80 20)).
  vm_compute. reflexivity.
Defined.

(** ** Malformed results *)

Lemma collect_raise `{Interpreter} (l1 l2 : list (string * float * polygon))
    (text : string) (score : float) (poly : polygon) (e : exn)
    (before : list fragment) :
  collect l1 [] = inr before ->
  collect_item text score poly = inl e ->
  collect (l1 ++ (text, score, poly) :: l2) [] = inl e.
Proof.
  intros Hbefore Hraise. rewrite collect_app, Hbefore. simpl. by rewrite Hraise.
Qed.

Lemma try_page_first `{Interpreter} `{OcrEngine} (p : string) (first : page_result)
    (rest : list page_result) :
  ocr p = inr (RList (first :: rest)) ->
  no_results (RList (first :: rest)) = false ->
  try_page p = (let? fragments := page_fragments first in
                inr (build_clean_text fragments)).
Proof.
  intros Hocr Hsome. unfold try_page. rewrite Hocr.
  unfold result_bind at 1. by rewrite Hsome.
Qed.

(** X8: a polygon without vertices is harmless on an item the filters drop,
    but on an item they keep [min] raises, and the whole page then gets the
    failure placeholder with the message the interpreter gives that error:
    the fragments collected from the items before it are not used. *)
Theorem empty_polygon_fails_page `{Interpreter} (E : OcrEngine) (p : string)
    (l1 l2 : list legacy_line) (rest : list page_result)
    (text : string) (score : float) (before : list fragment) :
  @ocr E p = inr (RList (PLegacy (l1 ++ Line [] text score :: l2) :: rest)) ->
  page_fragments (PLegacy l1) = inr before ->
  (skipped text score = true ->
   page_fragments (PLegacy (l1 ++ Line [] text score :: l2))
   = page_fragments (PLegacy (l1 ++ l2))) ∧
  (skipped text score = false ->
   @page_text _ E p = "[PaddleOCR extraction failed: " +:+ min_empty_message +:+ "]").
Proof.
  intros Hocr Hbefore. split.
  - intros Hskip. unfold page_fragments, legacy_items.
    rewrite !fmap_app, fmap_cons. apply collect_drop.
    unfold collect_item. by rewrite Hskip.
  - intros Hkeep. unfold page_text.
    rewrite (try_page_first p _ rest Hocr) by (simpl; by destruct l1).
    unfold page_fragments, legacy_items in *.
    rewrite fmap_app, fmap_cons.
    rewrite (collect_raise _ _ text score []
               (Exception min_empty_message) before Hbefore); [done|].
    unfold collect_item. by rewrite Hkeep.
Qed.

(** X9: when the three arrays of a structured result differ in length, the
    entries past the shortest array are ignored and nothing is raised: the
    fragments are those of the arrays cut to a common length. *)
Theorem structured_arrays_cut_to_shortest `{Interpreter}
    (t t' : list string) (s s' : list float) (q q' : list polygon) :
  length t = length s -> length s = length q ->
  t' = [] ∨ s' = [] ∨ q' = [] ->
  page_fragments (PStructured (OCRResult (t ++ t') (s ++ s') (q ++ q')))
  = page_fragments (PStructured (OCRResult t s q)).
Proof.
  intros Hts Hsq Hshort. unfold page_fragments, structured_items. simpl.
  rewrite zip3_app by done.
  assert (zip3 t' s' q' = []) as ->.
  { destruct Hshort as [->|[->| ->]]; [done| |].
    - by destruct t'.
    - destruct t'; [done|]. by destruct s'. }
  by rewrite app_nil_r.
Qed.

Lemma zip3_fmap {A B C D} (f : D -> A) (g : D -> B) (h : D -> C) (l : list D) :
  zip3 (f <$> l) (g <$> l) (h <$> l) = (fun x => (f x, g x, h x)) <$> l.
Proof. induction l as [|x l IH]; simpl; [done|]. f_equal. apply IH. Qed.

(** X10: the two result shapes are normalised alike: a legacy list and the
    structured mapping that holds the same recognitions in parallel arrays
    give the same fragments, or raise the same exception. *)
Theorem result_shapes_agree `{Interpreter} (lines : list legacy_line) :
  page_fragments (PStructured (arrays_of_lines lines))
  = page_fragments (PLegacy lines).
Proof.
  unfold page_fragments, structured_items, legacy_items, arrays_of_lines.
  cbn [rec_texts rec_scores dt_polys].
  rewrite zip3_fmap. f_equal.
  induction lines as [|[box text score] lines IH]; [done|].
  rewrite !fmap_cons. by rewrite IH.
Qed.

Lemma empty_polygon_fails_page_witness :
  (skipped "Milk" 0.9%float = true ->
   @page_fragments cpython_3_11
     (PLegacy ([Line (Demo.box_at 10 200 80 20) "Eggs" 0.75%float]
               ++ Line [] "Milk" 0.9%float :: []))
   = @page_fragments cpython_3_11
       (PLegacy ([Line (Demo.box_at 10 200 80 20) "Eggs" 0.75%float] ++ []))) ∧
  (skipped "Milk" 0.9%float = false ->
   @page_text cpython_3_11 Sample.no_vertex_engine "any/page_1.png"
   = "[PaddleOCR extraction failed: " +:+ @min_empty_message cpython_3_11 +:+ "]").
Proof.
  apply (@empty_polygon_fails_page cpython_3_11 Sample.no_vertex_engine "any/page_1.png"
           [Line (Demo.box_at 10 200 80 20) "Eggs" 0.75%float] [] []
           "Milk" 0.9%float [Fragment "Eggs" 200 10]).
  - reflexivity.
  - vm_compute. reflexivity.
Defined.

Lemma structured_arrays_cut_to_shortest_witness :
  @page_fragments cpython_3_11
    (PStructured (OCRResult (["Milk"] ++ ["Eggs"; "Tea"]) ([0.9%float] ++ [])
                    ([Demo.box_at 10 100 80 20] ++ [Demo.box_at 10 200 80 20])))
  = @page_fragments cpython_3_11
      (PStructured (OCRResult ["Milk"] [0.9%float] [Demo.box_at 10 100 80 20])).
Proof.
  apply (@structured_arrays_cut_to_shortest cpython_3_11); [reflexivity | reflexivity | ].
  right. left. reflexivity.
Defined.

(** ** Page discovery *)

(** X11: discovery returns the pages 1 to [k] in order, where [k + 1] is
    the first number whose image is missing; images numbered after the gap
    are not returned, whether or not they exist. *)
Theorem find_pages_contiguous (files : gset string) (image_dir : string)
    (k fuel : nat) :
  (∀ j : nat, (1 <= j <= k)%nat -> page_path image_dir j ∈ files) ->
  page_path image_dir (S k) ∉ files ->
  (k < fuel)%nat ->
  find_pages files image_dir fuel 1 [] = Some (page_path image_dir <$> seq 1 k).
Proof.
  intros Hbefore Hmiss Hfuel.
  rewrite (find_pages_stops files image_dir k fuel 1 []); [done| |done|done].
  intros j Hj. apply Hbefore. lia.
Qed.

Lemma find_pages_contiguous_witness :
  find_pages Sample.gap_files "gap" 5 1 [] = Some (page_path "gap" <$> seq 1 1).
Proof.
  apply find_pages_contiguous.
  - intros j Hj. assert (j = 1%nat) as -> by lia.
    apply (bool_decide_unpack _). vm_compute. exact I.
  - intros Hin. pose proof (bool_decide_pack _ Hin) as Hb. vm_compute in Hb. done.
  - lia.
Defined.

(** ** What [save_capped_jpeg] writes *)



(** X13: [save_capped_jpeg] touches the output path only.  When it returns,
    the output path exists, every other path exists exactly if it did and
    holds the bytes it held; when it raises, the file system is as it
    was: no file is created or changed. *)
Theorem save_capped_jpeg_touches_output_only `{Imaging} (fuel : nat) (img : Img)
    (out_path : string) (quality : Z) (w w' : world) :
  (save_capped_jpeg fuel img out_path quality w = Done tt w' ->
   files w' = {[out_path]} ∪ files w ∧
   tmp_count w' = tmp_count w ∧
   ∀ p : string, p ≠ out_path -> written w' !! p = written w !! p) ∧
  (∀ e : exn, save_capped_jpeg fuel img out_path quality w = Raised e w' -> w' = w).
Proof.
  unfold save_capped_jpeg, write_file, bind, call_loop, call, ret, modify.
  split.
  - intros Hrun.
    destruct (needs_rgb (img_mode img));
      [destruct (img_convert img "RGB") as [e|img0]; [done|] | ];
      (match type of Hrun with context [img_save_jpeg ?i quality] =>
         destruct (img_save_jpeg i quality) as [e|buf0]; [done|];
         destruct (cap_loop fuel quality i buf0) as [[e|b]|]; try done
       end);
      (destruct (open_for_write out_path) as [e|[]]; [done|]);
      injection Hrun as <-; simpl; (split; [done|]); (split; [done|]);
      intros p Hp; by rewrite lookup_insert_ne.
  - intros e Hrun.
    destruct (needs_rgb (img_mode img));
      [destruct (img_convert img "RGB") as [e0|img0]; [by injection Hrun|] | ];
      (match type of Hrun with context [img_save_jpeg ?i quality] =>
         destruct (img_save_jpeg i quality) as [e1|buf0]; [by injection Hrun|];
         destruct (cap_loop fuel quality i buf0) as [[e2|b]|]; try done
       end);
      try (destruct (open_for_write out_path) as [e3|[]]; [|done]);
      by injection Hrun.
Qed.

Lemma save_capped_jpeg_touches_output_only_witness :
  files {| files := {["thumb.jpg"]} ∪ files Demo.disk;
           written := <["thumb.jpg" := 361000]> (written Demo.disk);
           tmp_count := tmp_count Demo.disk |}
  = {["thumb.jpg"]} ∪ files Demo.disk ∧
  tmp_count {| files := {["thumb.jpg"]} ∪ files Demo.disk;
               written := <["thumb.jpg" := 361000]> (written Demo.disk);
               tmp_count := tmp_count Demo.disk |}
  = tmp_count Demo.disk ∧
  ∀ p : string, p ≠ "thumb.jpg" ->
    written {| files := {["thumb.jpg"]} ∪ files Demo.disk;
               written := <["thumb.jpg" := 361000]> (written Demo.disk);
               tmp_count := tmp_count Demo.disk |} !! p
    = written Demo.disk !! p.
Proof.
  apply (proj1 (@save_capped_jpeg_touches_output_only Demo.toy_imaging 0
                  Sample.thumbnail "thumb.jpg" 90 Demo.disk _)).
  reflexivity.
Defined.

(** ** The unwarping stage *)

Lemma just_made_exists (p : string) (fl : gset string) : p ∈ {[p]} ∪ fl.
Proof. apply elem_of_union_l, elem_of_singleton. done. Qed.

Lemma just_unlinked_gone (p : string) (fl : gset string) : p ∉ ({[p]} ∪ fl) ∖ {[p]}.
Proof.
  intros Hin. apply elem_of_difference in Hin as [_ Hin].
  apply Hin, elem_of_singleton. done.
Qed.

Section UnwarpFacts.
Context `{Models}.

Lemma tmp_name_truthy (n : nat) : Py.truthy (tmp_name n) = true.
Proof. done. Qed.

Lemma unwarp_stage_outcome (img_path : string) (angle : Z) (img : Img) (s : pstate) :
  ∃ (img' : Img) (s' : pstate),
    unwarp_stage img_path angle img s = Done img' s' ∧
    written (fs s') = written (fs s) ∧
    page (info s') = page (info s) ∧
    rotated (info s') = rotated (info s) ∧
    file (info s') = file (info s) ∧
    ((img' = img ∧ unwarped (info s') = unwarped (info s)) ∨
     unwarped (info s') = true) ∧
    (angle = 0 -> fs s' = fs s).
Proof.
  destruct s as [[fl wr n] i].
  unfold unwarp_stage, try_except, bind, unwarp_source, unwarp_apply, bind,
    on_fs, make_temp, unlink, call, ret, set_unwarped, modify.
  destruct (decide (angle = 0)) as [->|Hangle].
  - rewrite bool_decide_eq_false_2 by (intros Hne; by apply Hne). simpl.
    destruct (unwarp_predict img_path img) as [e|[| |a]]; simpl;
      try (destruct (img_fromarray_bgr a) as [e|img']; simpl);
      eexists _, _; (split; [reflexivity|]); simpl; repeat (split; [done|]);
      first [ split; [by left | done] | split; [by right | done] ].
  - rewrite bool_decide_eq_true_2 by done. simpl.
    destruct (img_save_png img (tmp_name n)) as [e|[]]; simpl.
    { eexists _, _. split; [reflexivity|]. simpl. repeat (split; [done|]).
      split; [by left | done]. }
    destruct (unwarp_predict (tmp_name n) img) as [e|[| |a]]; simpl;
      try (destruct (img_fromarray_bgr a) as [e|img']; simpl);
      rewrite ?tmp_name_truthy;
      eexists _, _; (split; [reflexivity|]); simpl; repeat (split; [done|]);
      first [ split; [by left | done] | split; [by right | done] ].
Qed.

(** X14: the unwarping stage is recoverable.  It never raises and needs no
    loop fuel; it leaves the written outputs and the page, rotation and file
    fields of the entry alone; and either it hands back the image it was
    given with the unwarped flag as it was, or it sets the flag.  Without a
    rotation it does not touch the file system at all. *)
Theorem unwarp_stage_recovers (img_path : string) (angle : Z) (img : Img) (s : pstate) :
  ∃ (img' : Img) (s' : pstate),
    unwarp_stage img_path angle img s = Done img' s' ∧
    written (fs s') = written (fs s) ∧
    page (info s') = page (info s) ∧
    rotated (info s') = rotated (info s) ∧
    file (info s') = file (info s) ∧
    ((img' = img ∧ unwarped (info s') = unwarped (info s)) ∨
     unwarped (info s') = true) ∧
    (angle = 0 -> fs s' = fs s).
Proof. apply unwarp_stage_outcome. Qed.

(** X15: when the page was rotated, the temporary file the stage makes is
    gone after the stage exactly when the body of the stage ran to its end
    (the rotated image was saved, the model returned a result that holds the
    key, and an array in it converted); on every failure of the stage the
    file is left behind. *)
Theorem temp_file_removed_only_on_completion (img_path : string) (angle : Z)
    (img : Img) (s : pstate) (img' : Img) (s' : pstate) :
  angle ≠ 0 ->
  unwarp_stage img_path angle img s = Done img' s' ->
  (tmp_name (tmp_count (fs s)) ∉ files (fs s') <->
   img_save_png img (tmp_name (tmp_count (fs s))) = inr tt ∧
   unwarp_completes (tmp_name (tmp_count (fs s))) img = true).
Proof.
  destruct s as [[fl wr n] i]. intros Hangle.
  unfold unwarp_stage, try_except, bind, unwarp_source, unwarp_apply, bind,
    on_fs, make_temp, unlink, call, ret, set_unwarped, modify, unwarp_completes.
  rewrite bool_decide_eq_true_2 by done. simpl.
  destruct (img_save_png img (tmp_name n)) as [e|[]]; simpl.
  { intros [= <- <-]. simpl. split.
    - intros Hnot. destruct Hnot. apply just_made_exists.
    - by intros [? _]. }
  destruct (unwarp_predict (tmp_name n) img) as [e|[| |a]]; simpl;
    try (destruct (img_fromarray_bgr a) as [e|im]; simpl);
    rewrite ?tmp_name_truthy; intros [= <- <-]; simpl;
    first [ split; [intros Hnot; destruct Hnot; apply just_made_exists
                   | intros [_ ?]; done]
          | split; [done | intros _; apply just_unlinked_gone] ].
Qed.

End UnwarpFacts.

Lemma temp_file_removed_only_on_completion_witness :
  tmp_name 0 ∉ {[tmp_name 0]} ∪ files Demo.disk <->
  @img_save_png Demo.toy_imaging (Demo.Picture "RGBA" 3000 4000) (tmp_name 0) = inr tt ∧
  @unwarp_completes _ Demo.toy_models (tmp_name 0) (Demo.Picture "RGBA" 3000 4000) = true.
Proof.
  refine (@temp_file_removed_only_on_completion _ Demo.toy_models
            "good/page_1.png" 90 (Demo.Picture "RGBA" 3000 4000)
            {| fs := Demo.disk; info := new_info 1 |}
            (Demo.Picture "RGBA" 3000 4000)
            {| fs := {| files := {[tmp_name 0]} ∪ files Demo.disk;
                        written := written Demo.disk;
                        tmp_count := 1 |};
               info := new_info 1 |} _ _).
  - discriminate.
  - reflexivity.
Defined.

(** ** The entry and the output of a page *)

Lemma save_capped_jpeg_outcome `{Imaging} (fuel : nat) (img : Img)
    (out_path : string) (quality : Z) (w : world) :
  match save_capped_jpeg fuel img out_path quality w with
  | Done _ w' =>
      ∃ b : Bytes, nbytes b <= MAX_JPEG_BYTES ∧
                   w' = {| files := {[out_path]} ∪ files w;
                           written := <[out_path := b]> (written w);
                           tmp_count := tmp_count w |}
  | Raised _ w' => w' = w
  | OutOfFuel => True
  end.
Proof.
  unfold save_capped_jpeg, write_file, bind, call_loop, call, ret, modify.
  destruct (needs_rgb (img_mode img));
    [destruct (img_convert img "RGB") as [e|img0]; [done|] | ];
    (match goal with |- context [img_save_jpeg ?i quality] =>
       destruct (img_save_jpeg i quality) as [e|buf0]; [done|];
       destruct (cap_loop fuel quality i buf0) as [[e|b]|] eqn:Hloop; try done
     end);
    (destruct (open_for_write out_path) as [e|[]]; [done|]);
    exists b; (split; [|done]); by destruct (cap_loop_result _ _ _ _ _ Hloop).
Qed.

Section PageEntry.
Context `{Models}.

Lemma encode_stage_outcome (fuel : nat) (image_dir : string) (page_idx : nat)
    (img : Img) (s : pstate) :
  match encode_stage fuel image_dir page_idx img s with
  | Done _ s' =>
      ∃ b : Bytes,
        nbytes b <= MAX_JPEG_BYTES ∧
        written (fs s') = <[out_path_of image_dir page_idx := b]> (written (fs s)) ∧
        page (info s') = page (info s) ∧
        rotated (info s') = rotated (info s) ∧
        unwarped (info s') = unwarped (info s) ∧
        file (info s') = Some (out_file_name page_idx)
  | Raised _ s' => s' = s
  | OutOfFuel => True
  end.
Proof.
  unfold encode_stage, bind, on_fs, set_file, modify.
  pose proof (save_capped_jpeg_outcome fuel img
                (Py.path_join image_dir (out_file_name page_idx)) 90 (fs s)) as Hsave.
  destruct (save_capped_jpeg fuel img
              (Py.path_join image_dir (out_file_name page_idx)) 90 (fs s))
    as [[] w'|e w'|]; [| |done].
  - destruct Hsave as (b & Hb & ->). exists b. simpl. by repeat split.
  - subst w'. by destruct s.
Qed.

Lemma fallback_outcome (fuel : nat) (image_dir img_path : string) (page_idx : nat)
    (s : pstate) :
  match fallback fuel image_dir img_path page_idx s with
  | Done _ s' =>
      ∃ b : Bytes,
        nbytes b <= MAX_JPEG_BYTES ∧
        written (fs s') = <[out_path_of image_dir page_idx := b]> (written (fs s)) ∧
        page (info s') = page (info s) ∧
        rotated (info s') = rotated (info s) ∧
        unwarped (info s') = unwarped (info s) ∧
        file (info s') = Some (out_file_name page_idx)
  | Raised _ s' => s' = s
  | OutOfFuel => True
  end.
Proof.
  unfold fallback, bind, call.
  destruct (image_open img_path) as [e|img]; [done|].
  apply encode_stage_outcome.
Qed.

Lemma primary_outcome (fuel : nat) (image_dir img_path : string) (page_idx : nat)
    (s : pstate) :
  match primary fuel image_dir img_path page_idx s with
  | Done _ s' =>
      ∃ (b : Bytes) (angle : Z),
        ori_predict img_path = inr angle ∧
        nbytes b <= MAX_JPEG_BYTES ∧
        written (fs s') = <[out_path_of image_dir page_idx := b]> (written (fs s)) ∧
        page (info s') = page (info s) ∧
        rotated (info s') = angle ∧
        file (info s') = Some (out_file_name page_idx)
  | Raised _ s' =>
      written (fs s') = written (fs s) ∧
      page (info s') = page (info s) ∧
      file (info s') = file (info s) ∧
      match ori_predict img_path with
      | inl _ => s' = s
      | inr angle => rotated (info s') = angle
      end
  | OutOfFuel => True
  end.
Proof.
  unfold primary, bind, call, set_rotated, modify.
  destruct (ori_predict img_path) as [e|angle]; [done|].
  destruct (image_open img_path) as [e|img]; [done|].
  assert (∀ img0 : Img,
    match
      (match unwarp_stage img_path angle img0
               {| fs := fs s;
                  info := {| page := page (info s); rotated := angle;
                             unwarped := unwarped (info s); file := file (info s) |} |}
       with
       | Done a s' => encode_stage fuel image_dir page_idx a s'
       | Raised e s' => Raised e s'
       | OutOfFuel => OutOfFuel
       end)
    with
    | Done _ s' =>
        ∃ (b : Bytes) (angle0 : Z),
          @inr exn Z angle = inr angle0 ∧
          nbytes b <= MAX_JPEG_BYTES ∧
          written (fs s') = <[out_path_of image_dir page_idx := b]> (written (fs s)) ∧
          page (info s') = page (info s) ∧
          rotated (info s') = angle0 ∧
          file (info s') = Some (out_file_name page_idx)
    | Raised _ s' =>
        written (fs s') = written (fs s) ∧
        page (info s') = page (info s) ∧
        file (info s') = file (info s) ∧
        rotated (info s') = angle
    | OutOfFuel => True
    end) as Hrest.
  { intros img0.
    destruct (unwarp_stage_outcome img_path angle img0
                {| fs := fs s;
                   info := {| page := page (info s); rotated := angle;
                              unwarped := unwarped (info s); file := file (info s) |} |})
      as (img' & s1 & -> & Hw & Hp & Hr & Hf & _).
    simpl in *.
    pose proof (encode_stage_outcome fuel image_dir page_idx img' s1) as Henc.
    destruct (encode_stage fuel image_dir page_idx img' s1) as [[] s2|e s2|]; [| |done].
    - destruct Henc as (b & Hb & Hw2 & Hp2 & Hr2 & _ & Hf2).
      exists b, angle. rewrite Hw2, Hw, Hp2, Hp, Hr2, Hr. done.
    - subst s2. done. }
  simpl. destruct (bool_decide (angle ≠ 0)); simpl.
  - destruct (img_rotate img angle) as [e|img0]; simpl; [done|]. apply Hrest.
  - apply Hrest.
Qed.

Lemma process_page_done (fuel : nat) (image_dir img_path : string) (page_idx : nat)
    (s s' : pstate) :
  process_page fuel image_dir img_path page_idx s = Done tt s' ->
  page (info s') = page (info s) ∧
  file (info s') = Some (out_file_name page_idx) ∧
  (∀ angle, ori_predict img_path = inr angle -> rotated (info s') = angle) ∧
  (∀ e, ori_predict img_path = inl e ->
        rotated (info s') = rotated (info s) ∧ unwarped (info s') = unwarped (info s)) ∧
  ∃ b : Bytes,
    nbytes b <= MAX_JPEG_BYTES ∧
    written (fs s') = <[out_path_of image_dir page_idx := b]> (written (fs s)).
Proof.
  unfold process_page, try_except.
  pose proof (primary_outcome fuel image_dir img_path page_idx s) as Hprim.
  destruct (primary fuel image_dir img_path page_idx s) as [[] s1|e0 s1|]; [| |done].
  - intros [= <-]. destruct Hprim as (b & angle & Hori & Hb & Hw & Hp & Hr & Hf).
    split; [done|]. split; [done|]. split; [|split].
    + intros a Ha. congruence.
    + intros e He. congruence.
    + by exists b.
  - intros Hfb. destruct Hprim as (Hw & Hp & Hf & Hori).
    pose proof (fallback_outcome fuel image_dir img_path page_idx s1) as Hout.
    rewrite Hfb in Hout. destruct Hout as (b & Hb & Hw2 & Hp2 & Hr2 & Hu2 & Hf2).
    split; [congruence|]. split; [done|]. split; [|split].
    + intros a Ha. rewrite Ha in Hori. congruence.
    + intros e He. rewrite He in Hori. subst s1. done.
    + exists b. split; [done|]. congruence.
Qed.

End PageEntry.

(** X16: the entry of a page that was processed keeps its page number and
    names the output file, and its rotation is the label the orientation
    model returned whenever that call succeeded, also when a later step
    failed and the output was encoded by the fallback from the original,
    unrotated image.  When the orientation call itself raised, the rotation
    and the unwarped flag are as they were set at the start. *)
Theorem entry_keeps_detected_angle `{Models} (fuel : nat) (image_dir img_path : string)
    (page_idx : nat) (s s' : pstate) :
  process_page fuel image_dir img_path page_idx s = Done tt s' ->
  page (info s') = page (info s) ∧
  file (info s') = Some (out_file_name page_idx) ∧
  (∀ angle : Z, ori_predict img_path = inr angle -> rotated (info s') = angle) ∧
  (∀ e : exn, ori_predict img_path = inl e ->
     rotated (info s') = rotated (info s) ∧ unwarped (info s') = unwarped (info s)).
Proof.
  intros Hrun. destruct (process_page_done _ _ _ _ _ _ Hrun) as (Hp & Hf & Ha & He & _).
  done.
Qed.

Lemma entry_keeps_detected_angle_witness :
  page (info Sample.page1_done) = page (new_info 1) ∧
  file (info Sample.page1_done) = Some (out_file_name 1) ∧
  (∀ angle : Z, @ori_predict _ Demo.toy_models "good/page_1.png" = inr angle ->
     rotated (info Sample.page1_done) = angle) ∧
  (∀ e : exn, @ori_predict _ Demo.toy_models "good/page_1.png" = inl e ->
     rotated (info Sample.page1_done) = rotated (new_info 1) ∧
     unwarped (info Sample.page1_done) = unwarped (new_info 1)).
Proof.
  refine (@entry_keeps_detected_angle _ Demo.toy_models 20 "good" "good/page_1.png" 1
            {| fs := Demo.disk; info := new_info 1 |} Sample.page1_done _).
  vm_compute. reflexivity.
Defined.

Section RunOutputs.
Context `{Models}.

Lemma capped_output_insert (w : world) (written' : gmap string Bytes)
    (path p : string) (b : Bytes) (fl : gset string) (n : nat) :
  nbytes b <= MAX_JPEG_BYTES ->
  written' = <[path := b]> (written w) ->
  (capped_output w p ∨ p = path) ->
  capped_output {| files := fl; written := written'; tmp_count := n |} p.
Proof.
  intros Hb -> Hp. unfold capped_output. simpl.
  destruct (decide (p = path)) as [->|Hne].
  - exists b. by rewrite lookup_insert_eq.
  - destruct Hp as [(b0 & Hb0 & Hle)|]; [|done].
    exists b0. by rewrite lookup_insert_ne.
Qed.

Lemma preprocess_pages_entries (fuel : nat) (image_dir : string) (images : list string)
    (pages infos : list page_info) (w w' : world) :
  preprocess_pages fuel image_dir images pages w = Done infos w' ->
  (∀ p, capped_output w p -> capped_output w' p) ∧
  ∃ new : list page_info,
    infos = pages ++ new ∧
    ∀ (i : nat) (entry : page_info), new !! i = Some entry ->
      page entry = (length pages + i + 1)%nat ∧
      file entry = Some (out_file_name (length pages + i + 1)) ∧
      capped_output w' (out_path_of image_dir (length pages + i + 1)).
Proof.
  revert pages w. induction images as [|img_path rest IH]; intros pages w; simpl.
  - unfold ret. intros [= <- <-]. split; [done|]. exists [].
    split; [by rewrite app_nil_r|]. intros i entry Hi. done.
  - destruct (process_page fuel image_dir img_path (length pages + 1)
                {| fs := w; info := new_info (length pages + 1) |})
      as [[] s|e s|] eqn:Hpage; intros Hrun; try done.
    destruct (process_page_done _ _ _ _ _ _ Hpage) as (Hp & Hf & _ & _ & b & Hb & Hw).
    destruct (IH _ _ Hrun) as (Hkeep & new & -> & Hnew). simpl in *.
    assert (∀ p, capped_output w p ∨ p = out_path_of image_dir (length pages + 1) ->
                 capped_output (fs s) p) as Hstep.
    { intros p Hp'. destruct (fs s) as [fl wr n] eqn:Hfs. simpl in Hw.
      by apply (capped_output_insert w wr _ p b fl n Hb Hw). }
    split; [intros p Hp'; apply Hkeep, Hstep; by left|].
    exists (info s :: new). split; [by rewrite <- app_assoc|].
    intros [|i] entry Hi; simpl in Hi.
    + injection Hi as <-. rewrite Nat.add_0_r. split; [done|]. split; [done|].
      apply Hkeep, Hstep. by right.
    + destruct (Hnew i entry Hi) as (Hpe & Hfe & Hce).
      rewrite length_app in Hpe, Hfe, Hce. simpl in *.
      replace (length pages + S i + 1)%nat with (length pages + 1 + i + 1)%nat by lia.
      done.
Qed.

End RunOutputs.

(** X17: when [preprocess] returns, the entries are numbered 1, 2, ... in
    page order, entry [n] names the file [page_<n>_pre.jpg], and that file
    was written in the image directory with bytes within the 5 MiB ceiling,
    whichever of the primary pipeline and the fallback produced it. *)
Theorem preprocess_outputs `{Models} (fuel : nat) (image_dir : string)
    (w w' : world) (infos : list page_info) :
  preprocess fuel image_dir w = Done infos w' ->
  ∀ (i : nat) (entry : page_info), infos !! i = Some entry ->
    page entry = S i ∧
    file entry = Some (out_file_name (S i)) ∧
    capped_output w' (out_path_of image_dir (S i)).
Proof.
  unfold preprocess.
  destruct (find_pages (files w) image_dir fuel 1 []) as [[|p images]|]; try done.
  intros Hrun i entry Hi.
  destruct (preprocess_pages_entries _ _ _ _ _ _ _ Hrun) as (_ & new & -> & Hnew).
  simpl in Hi. destruct (Hnew i entry Hi) as (Hp & Hf & Hc). simpl in *.
  replace (i + 1)%nat with (S i) in * by lia. done.
Qed.

Lemma preprocess_outputs_witness :
  page {| page := 2; rotated := 0; unwarped := false; file := Some "page_2_pre.jpg" |}
  = 2%nat ∧
  file {| page := 2; rotated := 0; unwarped := false; file := Some "page_2_pre.jpg" |}
  = Some (out_file_name 2) ∧
  @capped_output Demo.toy_imaging Sample.good_disk_after (out_path_of "good" 2).
Proof.
  refine (@preprocess_outputs _ Demo.toy_models 20 "good" Demo.disk
            Sample.good_disk_after Sample.good_entries _ 1%nat _ _).
  - vm_compute. reflexivity.
  - reflexivity.
Defined.

(** ** The command line *)

Lemma find_pages_prefix (files : gset string) (image_dir : string)
    (fuel page_num : nat) (acc images : list string) :
  find_pages files image_dir fuel page_num acc = Some images ->
  ∃ more, images = acc ++ more.
Proof.
  revert page_num acc. induction fuel as [|fuel IH]; intros page_num acc; simpl; [done|].
  destruct (bool_decide (page_path image_dir page_num ∈ files)).
  - intros Hrun. destruct (IH _ _ Hrun) as (more & ->).
    exists (page_path image_dir page_num :: more). by rewrite <- app_assoc.
  - intros [= <-]. exists []. by rewrite app_nil_r.
Qed.

(** Pages are found exactly when the first page exists. *)
Lemma find_pages_first (files : gset string) (image_dir : string) (fuel : nat)
    (images : list string) :
  find_pages files image_dir fuel 1 [] = Some images ->
  (images ≠ [] <-> page_path image_dir 1 ∈ files).
Proof.
  destruct fuel as [|fuel]; simpl; [done|].
  destruct (decide (page_path image_dir 1 ∈ files)) as [Hin|Hout].
  - rewrite bool_decide_eq_true_2 by done. intros Hrun.
    destruct (find_pages_prefix _ _ _ _ _ _ Hrun) as (more & ->). done.
  - rewrite bool_decide_eq_false_2 by done. intros [= <-]. done.
Qed.




(** Three runs on the sample files, with a standard output that encodes
    ASCII only: a scan whose texts are ASCII is printed and ends with
    status 0; the same scan read as [café] is extracted but cannot be
    printed, and ends with status 1 and the codec's message; a path that is
    not a directory is refused. *)
Lemma ocr_main_sample_runs :
  (∃ doc,
      @ocr_main cpython_3_11 Demo.scan_engine_ok Sample.ascii_stdout Sample.dirs
        Demo.scan_files 10 ["paddle_ocr.py"; "scan"] = Some (succeed_with doc) ∧
      totalPages doc = 5%nat) ∧
  @ocr_main cpython_3_11 Sample.cafe_engine Sample.ascii_stdout Sample.dirs
    Demo.scan_files 10 ["paddle_ocr.py"; "scan"]
  = Some (fail_with "'ascii' codec can't encode character") ∧
  @ocr_main cpython_3_11 Sample.cafe_engine Sample.ascii_stdout Sample.dirs
    Demo.scan_files 10 ["paddle_ocr.py"; "nowhere"]
  = Some (fail_with "Directory not found: nowhere").
Proof.
  split; [|split]; [|vm_compute; reflexivity..].
  eexists. split; vm_compute; reflexivity.
Qed.

(** X19: a run of [vlm_preprocess.py] that is refused before any page is
    processed (wrong number of arguments, a path that is not a directory, or
    a directory without [page_1.png]) ends with status 1, prints no summary,
    and leaves the file system as it was: nothing is written. *)
Theorem preprocess_main_refusal `{Models} (dirs : gset string) (fuel : nat)
    (argv : list string) (w : world) :
  (size (files w) < fuel)%nat ->
  (∀ prog d, argv = [prog; d] -> d ∈ dirs -> page_path d 1 ∉ files w) ->
  ∃ msg : string,
    preprocess_main dirs fuel argv w = Some (fail_with msg, w) ∧
    (∀ prog d, argv = [prog; d] -> d ∈ dirs ->
       msg = "No page_*.png images found in " +:+ d) ∧
    (∀ prog d, argv = [prog; d] -> d ∉ dirs ->
       msg = "Directory not found: " +:+ d) ∧
    (length argv ≠ 2%nat -> msg = "Usage: python vlm_preprocess.py <image_dir>").
Proof.
  intros Hfuel Hnone. unfold preprocess_main.
  destruct argv as [|prog [|d [|extra argv]]]; try (eexists; split; [done|];
    split; [by intros ? ? [=]|]; split; [by intros ? ? [=]|]; done).
  destruct (decide (d ∈ dirs)) as [Hdir|Hdir].
  - rewrite bool_decide_eq_true_2 by done. unfold preprocess.
    destruct (find_pages_terminates (files w) d) as (images & Hfind).
    rewrite (Hfind fuel Hfuel).
    pose proof (find_pages_first (files w) d fuel images (Hfind fuel Hfuel)) as Hfirst.
    destruct images as [|p images].
    + eexists. split; [done|]. split; [by intros ? ? [= <- <-] _|].
      split; [by intros ? ? [= <- <-] ?|]. done.
    + destruct (Hnone prog d eq_refl Hdir). by apply Hfirst.
  - rewrite bool_decide_eq_false_2 by done.
    eexists. split; [done|]. split; [by intros ? ? [= <- <-] ?|].
    split; [by intros ? ? [= <- <-] _|]. done.
Qed.

Lemma preprocess_main_refusal_witness :
  ∃ msg : string,
    @preprocess_main _ Demo.toy_models Sample.dirs 20 ["vlm_preprocess.py"; "empty"]
      Demo.disk
    = Some (fail_with msg, Demo.disk) ∧
    (∀ prog d, ["vlm_preprocess.py"; "empty"] = [prog; d] -> d ∈ Sample.dirs ->
       msg = "No page_*.png images found in " +:+ d) ∧
    (∀ prog d, ["vlm_preprocess.py"; "empty"] = [prog; d] -> d ∉ Sample.dirs ->
       msg = "Directory not found: " +:+ d) ∧
    (length ["vlm_preprocess.py"; "empty"] ≠ 2%nat ->
     msg = "Usage: python vlm_preprocess.py <image_dir>").
Proof.
  apply (@preprocess_main_refusal _ Demo.toy_models Sample.dirs 20
           ["vlm_preprocess.py"; "empty"] Demo.disk).
  - vm_compute. lia.
  - intros prog d [= <- <-] _ Hin.
    pose proof (bool_decide_pack _ Hin) as Hb. vm_compute in Hb. done.
Defined.

(** ** Files that page processing leaves in place *)

Section KeptFiles.
Context `{Models}.

Lemma keeps_refl (w : world) : keeps w w.
Proof. by intros p Hp _. Qed.

Lemma keeps_trans (w1 w2 w3 : world) : keeps w1 w2 -> keeps w2 w3 -> keeps w1 w3.
Proof. intros H12 H23 p Hp Hn. apply H23; [|done]. by apply H12. Qed.

Lemma keeping_ret {A} (a : A) (P : A -> Prop) : P a -> keeping (ret a) P.
Proof. intros Ha s. simpl. split; [apply keeps_refl | done]. Qed.

Lemma keeping_call {A} (r : result A) : keeping (call r) (fun _ => True).
Proof. intros s. unfold call. destruct r; simpl; [|split; [|done]]; apply keeps_refl. Qed.

Lemma keeping_info (f : pstate -> pstate) :
  (∀ s, fs (f s) = fs s) -> keeping (modify f) (fun _ => True).
Proof. intros Hf s. simpl. rewrite Hf. split; [apply keeps_refl | done]. Qed.

Lemma keeping_bind {A B} (m : M pstate A) (k : A -> M pstate B)
    (P : A -> Prop) (Q : B -> Prop) :
  keeping m P -> (∀ a, P a -> keeping (k a) Q) -> keeping (bind m k) Q.
Proof.
  intros Hm Hk s. unfold bind. specialize (Hm s).
  destruct (m s) as [a s1|e s1|]; [|done..].
  destruct Hm as [H1 Ha]. specialize (Hk a Ha s1).
  destruct (k a s1) as [b s2|e s2|]; [|by eapply keeps_trans|done].
  destruct Hk as [H2 Hb]. split; [by eapply keeps_trans | done].
Qed.

Lemma keeping_try {A} (body : M pstate A) (handler : exn -> M pstate A)
    (P : A -> Prop) :
  keeping body P -> (∀ e, keeping (handler e) P) -> keeping (try_except body handler) P.
Proof.
  intros Hbody Hh s. unfold try_except. specialize (Hbody s).
  destruct (body s) as [a s1|e s1|]; [done| |done].
  specialize (Hh e s1).
  destruct (handler e s1) as [a s2|e' s2|]; [|by eapply keeps_trans|done].
  destruct Hh as [H2 Ha]. split; [by eapply keeps_trans | done].
Qed.

Lemma keeping_weaken {A} (m : M pstate A) (P Q : A -> Prop) :
  (∀ a, P a -> Q a) -> keeping m P -> keeping m Q.
Proof.
  intros HPQ Hm s. specialize (Hm s). destruct (m s); [|done..].
  destruct Hm. split; auto.
Qed.

Lemma keeping_make_temp :
  keeping (on_fs make_temp) (fun p => ∃ n, p = tmp_name n).
Proof.
  intros s. unfold on_fs, make_temp. simpl. split; [|by eexists].
  intros p Hp _. simpl. by apply elem_of_union_r.
Qed.

Lemma keeping_unlink_temp (n : nat) :
  keeping (on_fs (unlink (tmp_name n))) (fun _ => True).
Proof.
  intros s. unfold on_fs, unlink, modify. simpl. split; [|done].
  intros p Hp Hn. simpl. apply elem_of_difference. split; [done|].
  intros Heq%elem_of_singleton. by apply (Hn n).
Qed.

Lemma keeping_save (fuel : nat) (img : Img) (out_path : string) (quality : Z) :
  keeping (on_fs (save_capped_jpeg fuel img out_path quality)) (fun _ => True).
Proof.
  intros s. unfold on_fs.
  pose proof (save_capped_jpeg_outcome fuel img out_path quality (fs s)) as Hsave.
  destruct (save_capped_jpeg fuel img out_path quality (fs s)) as [[] w'|e w'|];
    simpl; [| |done].
  - destruct Hsave as (b & _ & ->). split; [|done].
    intros p Hp _. simpl. by apply elem_of_union_r.
  - subst w'. apply keeps_refl.
Qed.

Lemma keeping_unwarp_stage (img_path : string) (angle : Z) (img : Img) :
  keeping (unwarp_stage img_path angle img) (fun _ => True).
Proof.
  unfold unwarp_stage. apply keeping_try; [|intros e; by apply keeping_ret].
  apply (keeping_bind _ _ (fun src => snd src = None ∨ ∃ n, snd src = Some (tmp_name n))).
  - unfold unwarp_source. destruct (bool_decide (angle ≠ 0)).
    + eapply keeping_bind; [apply keeping_make_temp|]. intros p [n ->].
      eapply keeping_bind; [apply keeping_call|]. intros _ _.
      apply keeping_ret. right. by exists n.
    + apply keeping_ret. by left.
  - intros [unwarp_input tmp_path] Hsrc. simpl in *. unfold unwarp_apply.
    eapply keeping_bind; [apply keeping_call|]. intros r _.
    apply (keeping_bind _ _ (fun _ => True)).
    + destruct r as [| |a].
      * apply keeping_call.
      * by apply keeping_ret.
      * eapply keeping_bind; [apply keeping_call|]. intros i _.
        eapply keeping_bind; [by apply keeping_info|]. intros _ _.
        by apply keeping_ret.
    + intros img' _. apply (keeping_bind _ _ (fun _ => True)).
      * destruct Hsrc as [->|[n ->]]; [by apply keeping_ret|].
        rewrite tmp_name_truthy. apply keeping_unlink_temp.
      * intros _ _. by apply keeping_ret.
Qed.

Lemma keeping_encode_stage (fuel : nat) (image_dir : string) (page_idx : nat) (img : Img) :
  keeping (encode_stage fuel image_dir page_idx img) (fun _ => True).
Proof.
  unfold encode_stage. eapply keeping_bind; [apply keeping_save|].
  intros _ _. by apply keeping_info.
Qed.

Lemma keeping_process_page (fuel : nat) (image_dir img_path : string) (page_idx : nat) :
  keeping (process_page fuel image_dir img_path page_idx) (fun _ => True).
Proof.
  unfold process_page. apply keeping_try.
  - unfold primary.
    eapply keeping_bind; [apply keeping_call|]. intros angle _.
    eapply keeping_bind; [by apply keeping_info|]. intros _ _.
    eapply keeping_bind; [apply keeping_call|]. intros img _.
    apply (keeping_bind _ _ (fun _ => True)).
    { destruct (bool_decide (angle ≠ 0)); [apply keeping_call | by apply keeping_ret]. }
    intros img0 _.
    eapply keeping_bind; [apply keeping_unwarp_stage|]. intros img1 _.
    apply keeping_encode_stage.
  - intros e. unfold fallback.
    eapply keeping_bind; [apply keeping_call|]. intros img _.
    apply keeping_encode_stage.
Qed.

Lemma preprocess_pages_keeps (fuel : nat) (image_dir : string) (images : list string)
    (pages : list page_info) (w : world) :
  match preprocess_pages fuel image_dir images pages w with
  | Done _ w' => keeps w w'
  | Raised _ w' => keeps w w'
  | OutOfFuel => True
  end.
Proof.
  revert pages w. induction images as [|img_path rest IH]; intros pages w; simpl.
  - apply keeps_refl.
  - pose proof (keeping_process_page fuel image_dir img_path (length pages + 1)
                  {| fs := w; info := new_info (length pages + 1) |}) as Hpage.
    destruct (process_page fuel image_dir img_path (length pages + 1)
                {| fs := w; info := new_info (length pages + 1) |})
      as [[] s|e s|]; simpl in *; [|done..].
    destruct Hpage as [Hpage _].
    specialize (IH (pages ++ [info s]) (fs s)).
    destruct (preprocess_pages fuel image_dir rest (pages ++ [info s]) (fs s));
      [by eapply keeps_trans..|done].
Qed.

End KeptFiles.

(** X20: [preprocess] removes no file but temporary ones.  Whether the run
    returns or fails, every path that existed before it and is not the name
    of a temporary file still exists after it; the page images are never
    deleted or moved. *)
Theorem preprocess_keeps_files `{Models} (fuel : nat) (image_dir : string)
    (w w' : world) (p : string) :
  (∃ infos, preprocess fuel image_dir w = Done infos w') ∨
  (∃ e, preprocess fuel image_dir w = Raised e w') ->
  p ∈ files w ->
  (∀ n : nat, p ≠ tmp_name n) ->
  p ∈ files w'.
Proof.
  unfold preprocess. intros Hrun Hp Hn.
  destruct (find_pages (files w) image_dir fuel 1 []) as [[|q images]|].
  - destruct Hrun as [[infos Hrun]|[e Hrun]]; [done|]. by injection Hrun as _ <-.
  - pose proof (preprocess_pages_keeps fuel image_dir (q :: images) [] w) as Hkeep.
    destruct Hrun as [[infos Hrun]|[e Hrun]]; rewrite Hrun in Hkeep; by apply Hkeep.
  - by destruct Hrun as [[infos Hrun]|[e Hrun]].
Qed.

Lemma preprocess_keeps_files_witness :
  "scan/page_5.png" ∈ files Sample.good_disk_after.
Proof.
  apply (@preprocess_keeps_files _ Demo.toy_models 20 "good" Demo.disk
           Sample.good_disk_after "scan/page_5.png").
  - left. exists Sample.good_entries. vm_compute. reflexivity.
  - apply (bool_decide_unpack _). vm_compute. exact I.
  - intros n. unfold tmp_name. simpl. discriminate.
Defined.

(** ** A bound on the turns of the size-capping loop *)

(** X21: when the codec resizes to the size it is asked for and encodes
    within the ceiling every image whose dimensions are at most some
    [d >= 0], the loop ends, by returning a buffer or by a raised codec
    error, after no more turns than the larger dimension exceeds [d]. *)
Theorem cap_loop_turns_bounded `{Imaging} (d quality : Z) (img : Img) (buf : Bytes) :
  (∀ (i i' : Img) (size : Z * Z), img_resize i size = inr i' -> img_size i' = size) ->
  (∀ (i : Img) (b : Bytes),
      0 <= fst (img_size i) <= d -> 0 <= snd (img_size i) <= d ->
      img_save_jpeg i quality = inr b -> nbytes b <= MAX_JPEG_BYTES) ->
  0 <= d ->
  0 <= fst (img_size img) -> 0 <= snd (img_size img) ->
  img_save_jpeg img quality = inr buf ->
  ∀ fuel : nat,
    (Z.to_nat (Z.max (fst (img_size img)) (snd (img_size img)) - d) <= fuel)%nat ->
    ∃ r : result Bytes, cap_loop fuel quality img buf = Some r.
Proof.
  intros Hresize Hsmall Hd Hw Hh Henc fuel Hfuel.
  pose proof (cap_loop_ends d quality Hresize Hsmall fuel img buf Hd Hw Hh Henc Hfuel).
  destruct (cap_loop fuel quality img buf) as [r|]; [by exists r | done].
Qed.

Lemma cap_loop_turns_bounded_witness :
  ∃ r : result Z,
    @cap_loop Demo.toy_imaging 3000 90 (Demo.Picture "RGB" 4000 3000) 36001000
    = Some r.
Proof.
  apply (@cap_loop_turns_bounded Demo.toy_imaging 1000 90
           (Demo.Picture "RGB" 4000 3000) 36001000).
  - intros i i' [w h]. simpl.
    destruct ((w <? 1) || (h <? 1)); [discriminate|]. by intros [= <-].
  - intros [m w h] b. simpl. unfold Demo.jpeg_len. simpl.
    destruct ((w <? 1) || (h <? 1)); [discriminate|].
    intros Hw Hh [= <-]. unfold MAX_JPEG_BYTES. nia.
  - lia.
  - simpl. lia.
  - simpl. lia.
  - reflexivity.
  - simpl. lia.
Defined.
